(** * Celebrate Failure: a shallow embedding of [script.js]

    The script keeps one [state] object ({pending, entries, mottos}) in
    [localStorage], reads command lines typed into a terminal-like page,
    and renders lists.  This file embeds the parts of the script that
    decide its behaviour: the tokenizer (a global regular expression run
    in an [exec] loop), the storage wrapper, the command handlers, the
    delete action of the fail-log page, id generation and HTML escaping.

    JavaScript strings are sequences of UTF-16 code units; they are
    modelled as lists of code units ([N]). *)

From Stdlib Require Import String Ascii.
From Stdlib Require Import List NArith Bool Arith Lia QArith DecimalString.
Import ListNotations.

Local Open Scope N_scope.
Local Open Scope list_scope.

(** ** Strings *)

Definition jsstring := list N.

(** [js "abc"] is the JavaScript string with the given ASCII characters. *)
Definition js (s : string) : jsstring :=
  map N_of_ascii (list_ascii_of_string s).

Definition jsstring_eqb (a b : jsstring) : bool :=
  if list_eq_dec N.eq_dec a b then true else false.

Definition dquote : N := 34.   (* the double quote character *)
Definition squote : N := 39.   (* the single quote character *)
Definition space : N := 32.

(** The characters matched by [\s] and stripped by [String.prototype.trim]:
    ECMAScript WhiteSpace and LineTerminator. *)
Definition is_space (c : N) : bool :=
  (c =? 9) || (c =? 10) || (c =? 11) || (c =? 12) || (c =? 13) || (c =? 32)
  || (c =? 160) || (c =? 5760) || ((8192 <=? c) && (c <=? 8202))
  || (c =? 8232) || (c =? 8233) || (c =? 8239) || (c =? 8287)
  || (c =? 12288) || (c =? 65279).

Fixpoint trimStart (s : jsstring) : jsstring :=
  match s with
  | [] => []
  | c :: s' => if is_space c then trimStart s' else s
  end.

Definition trimEnd (s : jsstring) : jsstring := rev (trimStart (rev s)).

(** [s.trim()] *)
Definition trim (s : jsstring) : jsstring := trimEnd (trimStart s).

(** ToBoolean on a string, and [a && b] on strings. *)
Definition truthy_str (s : jsstring) : bool :=
  match s with
  | [] => false
  | _ :: _ => true
  end.

Definition and_str (a b : jsstring) : jsstring :=
  if truthy_str a then b else a.

(** [s.slice(a, b)] for indices [0 <= a <= b]. *)
Definition slice {A} (a b : nat) (s : list A) : list A :=
  firstn (b - a) (skipn a s).

(** [xs.join(sep)] on an array of strings. *)
Fixpoint join (sep : jsstring) (xs : list jsstring) : jsstring :=
  match xs with
  | [] => []
  | [x] => x
  | x :: rest => x ++ sep ++ join sep rest
  end.

(** ** Regular expressions

    The fragment of JavaScript regular expressions the script uses, with
    the backtracking semantics of the language: alternatives are tried
    left to right, quantifiers are greedy, and a capture group records
    the text it matched.  The matcher is written in continuation-passing
    style: [k] is what remains to be matched after the current piece. *)

Inductive atom :=
| Lit (c : N)              (* the character c *)
| NotLit (c : N)           (* [^c] *)
| NonSpace                 (* \S *)
| OneOf (cs : list N).     (* [cs] *)

Inductive regex :=
| Atom (a : atom)
| Star (a : atom)                  (* a*, greedy *)
| Plus (a : atom)                  (* a+, greedy *)
| Group (i : nat) (r : regex)      (* the i-th capture group *)
| Seq (r1 r2 : regex)
| Alt (r1 r2 : regex).

Definition atom_ok (a : atom) (c : N) : bool :=
  match a with
  | Lit d => c =? d
  | NotLit d => negb (c =? d)
  | NonSpace => negb (is_space c)
  | OneOf cs => existsb (N.eqb c) cs
  end.

(** Captures: [None] is a group that did not take part ([undefined]). *)
Definition captures := list (option jsstring).

Fixpoint set_capture (i : nat) (v : jsstring) (cs : captures) : captures :=
  match i, cs with
  | O, _ :: cs' => Some v :: cs'
  | O, [] => [Some v]
  | S i', c :: cs' => c :: set_capture i' v cs'
  | S i', [] => None :: set_capture i' v []
  end.

Definition get_capture (i : nat) (cs : captures) : option jsstring :=
  nth i cs None.

Definition cont := jsstring -> captures -> option (jsstring * captures).

(** Greedy repetition of an atom: take one more character when possible,
    and fall back to stopping here when the rest then fails. *)
Fixpoint star_match (a : atom) (s : jsstring) (cs : captures) (k : cont)
  : option (jsstring * captures) :=
  match s with
  | c :: s' =>
      if atom_ok a c then
        match star_match a s' cs k with
        | Some r => Some r
        | None => k s cs
        end
      else k s cs
  | [] => k [] cs
  end.

Fixpoint rmatch (r : regex) (s : jsstring) (cs : captures) (k : cont)
  : option (jsstring * captures) :=
  match r with
  | Atom a =>
      match s with
      | c :: s' => if atom_ok a c then k s' cs else None
      | [] => None
      end
  | Star a => star_match a s cs k
  | Plus a =>
      match s with
      | c :: s' => if atom_ok a c then star_match a s' cs k else None
      | [] => None
      end
  | Group i r1 =>
      rmatch r1 s cs
        (fun s' cs' =>
           k s' (set_capture i (firstn (length s - length s') s) cs'))
  | Seq r1 r2 => rmatch r1 s cs (fun s' cs' => rmatch r2 s' cs' k)
  | Alt r1 r2 =>
      match rmatch r1 s cs k with
      | Some res => Some res
      | None => rmatch r2 s cs k
      end
  end.

(** One call of [re.exec(s)] on a global regular expression, seen from
    [lastIndex]: [s] is the text from [lastIndex] on.  The match is tried
    at every start position from left to right; the result is the
    captures and the text after the match (the new [lastIndex]), or
    [None] when there is no match ([exec] returns [null]). *)
Fixpoint exec (r : regex) (s : jsstring) : option (jsstring * captures) :=
  match rmatch r s [] (fun s' cs' => Some (s', cs')) with
  | Some res => Some res
  | None =>
      match s with
      | [] => None
      | _ :: s' => exec r s'
      end
  end.

(** ** tokenize *)

(** The regular expression of [tokenize]: three alternatives, in this
    order.  First a double quote, group 1 holding any number of
    characters other than the double quote, and a double quote; second
    the same with the single quote and group 2; third group 3 holding
    one or more non-space characters.  Group [i] of the script is
    capture [i - 1] here. *)
Definition quoted_alt (q : N) (i : nat) : regex :=
  Seq (Atom (Lit q)) (Seq (Group i (Star (NotLit q))) (Atom (Lit q))).

Definition bare_alt : regex := Group 2 (Plus NonSpace).

Definition token_re : regex :=
  Alt (quoted_alt dquote 0) (Alt (quoted_alt squote 1) bare_alt).

(** [a ?? b] *)
Definition nullish {A} (a b : option A) : option A :=
  match a with
  | Some x => Some x
  | None => b
  end.

(** The value [m[1] ?? m[2] ?? m[3]] of a match. *)
Definition token_of (m : captures) : option jsstring :=
  nullish (get_capture 0 m) (nullish (get_capture 1 m) (get_capture 2 m)).

(** What a loop of the script does: it returns a value, or it never
    leaves the loop. *)
Inductive result (A : Type) :=
| Returns (a : A)
| Diverges.
Arguments Returns {A} a.
Arguments Diverges {A}.

(** [while ((m = re.exec(s))) out.push(m[1] ?? m[2] ?? m[3]);]
    [s] is the text from [lastIndex] on and [out] the array so far.  The
    loop is run with fuel; running out of fuel stands for a loop that
    does not end (an empty match would leave [lastIndex] in place). *)
Fixpoint tokenize_loop (fuel : nat) (s : jsstring)
    (out : list (option jsstring)) : result (list (option jsstring)) :=
  match fuel with
  | O => Diverges
  | S fuel' =>
      match exec token_re s with
      | None => Returns out
      | Some (rest, m) =>
          tokenize_loop fuel' rest (out ++ [token_of m])
      end
  end.

(** [tokenize(s)]: an array element is [Some t] for a string and [None]
    for [undefined]. *)
Definition tokenize (s : jsstring) : result (list (option jsstring)) :=
  tokenize_loop (S (length s)) s [].

(** ** State *)

Record PendingItem := mkPending {
  pending_message : jsstring;
  pending_lesson : jsstring
}.

Record Entry := mkEntry {
  entry_id : jsstring;
  entry_date : jsstring;
  entry_message : jsstring;
  entry_lesson : jsstring
}.

Record State := mkState {
  pending : list PendingItem;
  entries : list Entry;
  mottos : list jsstring
}.

(** ** Storage

    [localStorage] holds one text under [STORAGE_KEY].  The values
    [JSON.parse] produces: *)
#[local] Set Warnings "-register-all".

Inductive json :=
| JNull
| JBool (b : bool)
| JNum (q : Q)
| JStr (s : jsstring)
| JArr (l : list json)
| JObj (fields : list (jsstring * json)).

(** The stored item, by what [localStorage.getItem] and [JSON.parse]
    make of it. *)
Inductive item :=
| NoItem                  (* nothing stored: getItem returns null *)
| BadText                 (* a text JSON.parse rejects with SyntaxError *)
| JsonText (v : json).    (* a text JSON.parse turns into v *)

(** ToBoolean on a JSON value. *)
Definition truthy (v : json) : bool :=
  match v with
  | JNull => false
  | JBool b => b
  | JNum q => negb (Qnum q =? 0)%Z
  | JStr s => match s with [] => false | _ => true end
  | JArr _ => true
  | JObj _ => true
  end.

(** [a || b] *)
Definition js_or (a b : json) : json := if truthy a then a else b.

(** [JSON.parse(localStorage.getItem(STORAGE_KEY))]: [None] when it
    throws.  [JSON.parse(null)] parses the text null. *)
Definition parse_item (it : item) : option json :=
  match it with
  | NoItem => Some JNull
  | BadText => None
  | JsonText v => Some v
  end.

(** [loadState()]; [JNull] is [null]. *)
Definition loadState (it : item) : json :=
  match parse_item it with
  | Some v => js_or v JNull
  | None => JNull           (* catch { return null; } *)
  end.

(** The value of a PendingItem, an Entry and the State as JSON, with the
    keys in the order the objects are built. *)
Definition pending_json (p : PendingItem) : json :=
  JObj [(js "message", JStr (pending_message p));
        (js "lesson", JStr (pending_lesson p))].

Definition entry_json (e : Entry) : json :=
  JObj [(js "id", JStr (entry_id e));
        (js "date", JStr (entry_date e));
        (js "message", JStr (entry_message e));
        (js "lesson", JStr (entry_lesson e))].

Definition state_json (s : State) : json :=
  JObj [(js "pending", JArr (map pending_json (pending s)));
        (js "entries", JArr (map entry_json (entries s)));
        (js "mottos", JArr (map JStr (mottos s)))].

(** [saveState(s)]: the item afterwards holds the text
    [JSON.stringify(s)], which [JSON.parse] turns back into the value. *)
Definition saveState (v : json) : item := JsonText v.

(** ** Id generation

    [Math.random()] returns a number in [0, 1), and [toString(36)] prints
    it as 0 when it is zero and else as 0, a dot and the base-36 digits
    of the fraction, at least one.  A draw is given by these digits. *)
Definition draw := list N.

Definition digit36 (d : N) : N := if d <? 10 then 48 + d else 87 + d.

Definition toString36 (ds : draw) : jsstring :=
  match ds with
  | [] => js "0"
  | _ => js "0." ++ map digit36 ds
  end.

(** [shortId()], for the draw [Math.random()] makes. *)
Definition shortId (ds : draw) : jsstring := slice 2 9 (toString36 ds).

(** What the platform answers: the i-th call of [Math.random()], of
    [new Date().toLocaleDateString()] and of [Date.now()], counted from
    the start of the handler, and the time stamp
    [new Date(text).getTime()] gives ([None] for NaN). *)
Record Env := mkEnv {
  random : nat -> draw;
  localeDate : nat -> jsstring;
  now : nat -> Z;
  dateTime : jsstring -> option Z
}.

(** [seedEntries()], [seedMottos()] and [defaultState]. *)
Definition seedEntries (env : Env) : list Entry :=
  [ mkEntry (shortId (random env 0)) (localeDate env 0)
      (js "Pushed broken config to prod")
      (js "Add CI checks & use feature flags");
    mkEntry (shortId (random env 1)) (localeDate env 1)
      (js "Forgot to save before running benchmarks")
      (js "Automate benchmarks in npm scripts") ].

Definition seedMottos : list jsstring :=
  [ js "Blameless, then curious.";
    js "Ship, learn, repeat.";
    js "If it hurts, document it." ].

Definition defaultState (env : Env) : State :=
  mkState [] (seedEntries env) seedMottos.

(** The two statements under the comment Ensure state exists:
    [let state = loadState() || defaultState;
     if (!loadState()) saveState(state);]
    The result is the value of [state] and the stored item. *)
Definition boot (env : Env) (it : item) : json * item :=
  let state := js_or (loadState it) (state_json (defaultState env)) in
  (state, if negb (truthy (loadState it)) then saveState state else it).

(** ** escapeHtml *)

(** The object [map] of [escapeHtml], and the callback [ch => map[ch]]
    applied to each character the class of the five characters matches. *)
Definition escape_map : list (N * jsstring) :=
  [ (38, js "&amp;"); (60, js "&lt;"); (62, js "&gt;");
    (dquote, js "&quot;"); (squote, js "&#39;") ].

Fixpoint lookup_map (c : N) (m : list (N * jsstring)) : option jsstring :=
  match m with
  | [] => None
  | (k, v) :: m' => if c =? k then Some v else lookup_map c m'
  end.

(** [s.replace(re, f)] for a global expression that is one character
    class: every character of the class is replaced by what the callback
    returns, the others are kept. *)
Fixpoint replace_class (cs : list N) (f : N -> jsstring) (s : jsstring)
  : jsstring :=
  match s with
  | [] => []
  | c :: s' =>
      (if atom_ok (OneOf cs) c then f c else [c]) ++ replace_class cs f s'
  end.

(** [escapeHtml(s)] on a string; a missing key of [map] would print as
    the text undefined. *)
Definition escapeHtml (s : jsstring) : jsstring :=
  replace_class [38; 60; 62; dquote; squote]
    (fun ch => match lookup_map ch escape_map with
               | Some v => v
               | None => js "undefined"
               end) s.

(** ** The page *)

(** The class given to [print]. *)
Inductive cls := ClsLine | ClsOk | ClsInfo | ClsWarn | ClsErr.

Definition line := (cls * jsstring)%type.

(** The elements of [els] the handlers write to; [None] is an element
    the page does not have.  [els_screen] holds the lines printed,
    [els_list] and [els_mottosList] the items of the two lists of the
    home page, [els_failsRoot] the rows of the fail-log page. *)
Record Els := mkEls {
  els_screen : option (list line);
  els_list : option (list jsstring);
  els_mottosList : option (list jsstring);
  els_failsRoot : option (list jsstring)
}.

(** The variable [state], the stored item and the page. *)
Record World := mkWorld {
  state : State;
  storage : item;
  els : Els
}.

Definition set_state (st : State) (w : World) : World :=
  mkWorld st (storage w) (els w).

Definition set_els (e : Els) (w : World) : World :=
  mkWorld (state w) (storage w) e.

(** [saveState(state)] *)
Definition save (w : World) : World :=
  mkWorld (state w) (saveState (state_json (state w))) (els w).

(** [print(els, text, cls)] *)
Definition print (text : jsstring) (c : cls) (w : World) : World :=
  match els_screen (els w) with
  | None => w
  | Some ls =>
      set_els (mkEls (Some (ls ++ [(c, text)])) (els_list (els w))
                 (els_mottosList (els w)) (els_failsRoot (els w))) w
  end.

Definition nl : jsstring := [10].
Definition quoted (s : string) : jsstring := [dquote] ++ js s ++ [dquote].
Definition arrow : jsstring := [8594].
Definition bullet : jsstring := [8226].
Definition times : jsstring := [215].
Definition emdash : jsstring := [8212].
Definition tada : jsstring := [55356; 57225].

(** The markup of one item of the recent list of the home page. *)
Definition homeItemHtml (e : Entry) : jsstring :=
  nl ++ js "          <span class=" ++ quoted "badge" ++ js ">fail</span>"
  ++ nl ++ js "          <div>"
  ++ nl ++ js "            <p class=" ++ quoted "lesson" ++ js "><strong>"
  ++ escapeHtml (entry_message e) ++ js "</strong><br/>" ++ arrow ++ js " "
  ++ escapeHtml (entry_lesson e) ++ js "</p>"
  ++ nl ++ js "            <p class=" ++ quoted "meta" ++ js ">commit "
  ++ entry_id e ++ js " " ++ bullet ++ js " " ++ entry_date e ++ js "</p>"
  ++ nl ++ js "          </div>"
  ++ nl ++ js "        ".

(** The markup of one row of the fail-log page. *)
Definition failRowHtml (e : Entry) : jsstring :=
  nl ++ js "        <span class=" ++ quoted "badge" ++ js ">fail</span>"
  ++ nl ++ js "        <div>"
  ++ nl ++ js "          <p class=" ++ quoted "lesson" ++ js "><strong>"
  ++ escapeHtml (entry_message e) ++ js "</strong><br/>" ++ arrow ++ js " "
  ++ escapeHtml (entry_lesson e) ++ js "</p>"
  ++ nl ++ js "          <p class=" ++ quoted "meta" ++ js ">commit "
  ++ entry_id e ++ js " " ++ bullet ++ js " " ++ entry_date e ++ js "</p>"
  ++ nl ++ js "        </div>"
  ++ nl ++ js "        <button class=" ++ quoted "btn-del"
  ++ js " aria-label=" ++ quoted "delete entry"
  ++ js " title=" ++ quoted "delete" ++ js ">" ++ times ++ js "</button>"
  ++ nl ++ js "      ".

(** [xs.slice(-n)] *)
Definition lastn {A} (n : nat) (xs : list A) : list A :=
  skipn (length xs - n) xs.

(** [renderHomeLists(els)]: the five most recent entries, newest first,
    and the last six mottos; a motto is set as text, not as markup. *)
Definition renderHomeLists (w : World) : World :=
  let e := els w in
  let l1 :=
    match els_list e with
    | None => None
    | Some _ => Some (map homeItemHtml
                        (slice 0 5 (rev (entries (state w)))))
    end in
  let l2 :=
    match els_mottosList e with
    | None => None
    | Some _ => Some (lastn 6 (mottos (state w)))
    end in
  set_els (mkEls (els_screen e) l1 l2 (els_failsRoot e)) w.

(** Errors a handler can end with. *)
Inductive error :=
| ReferenceError (name : jsstring)    (* name is not defined *)
| TypeError.

Inductive outcome :=
| Done (w : World)
| Throws (e : error) (w : World).

(** The world a handler leaves behind, however it ended. *)
Definition world_of (o : outcome) : World :=
  match o with
  | Done w => w
  | Throws _ w => w
  end.

(** [renderFailsPage(els)]: all entries, newest first.  Assigning to
    [root.innerHTML] throws when the page has no fails-root element. *)
Definition renderFailsPage (w : World) : outcome :=
  let e := els w in
  match els_failsRoot e with
  | None => Throws TypeError w
  | Some _ =>
      Done (set_els (mkEls (els_screen e) (els_list e) (els_mottosList e)
                       (Some (map failRowHtml (rev (entries (state w))))))
              w)
  end.

(** ** Command handlers *)

(** [commitCmd] calls [suggestLesson] and [randomFailure], which the
    script declares nowhere: the names are looked up in the global scope
    of the page, and calling a name that has no binding throws a
    ReferenceError.  A [Host] says what the page binds them to, if it
    does: a function from the message to the lesson, and the message the
    call of [randomFailure] returns. *)
Record Host := mkHost {
  suggestLesson : option (jsstring -> jsstring);
  randomFailure : option jsstring
}.

(** The script on a page that loads nothing else. *)
Definition script_only : Host := mkHost None None.

Definition help_lines : list (jsstring * jsstring) :=
  [ (js "help", js "show available commands");
    (js "about", js "story behind the project");
    (js "log", js "print your failure log");
    (js "commit " ++ quoted "message",
      js "stage a new failure " ++ arrow ++ js " lesson");
    (js "push", js "celebrate & save staged items");
    (js "motto " ++ quoted "text", js "add a team motto");
    (js "stats", js "show counts & streak");
    (js "clear", js "clear the terminal") ].

(** [s.padEnd(n)] *)
Definition padEnd (n : nat) (s : jsstring) : jsstring :=
  s ++ repeat space (n - length s).

Definition help (w : World) : World :=
  fold_left (fun w' cd => print (padEnd 18 (fst cd) ++ js " " ++ snd cd)
                            ClsInfo w')
    help_lines w.

Definition aboutCmd (w : World) : World :=
  let w := print (js "--- about celebrate-failure ---") ClsInfo w in
  let w := print (js "This project is a love letter to iteration.")
             ClsLine w in
  let w := print (js "We fail, we learn, we commit again " ++ emdash
                    ++ js " like git history itself.") ClsLine w in
  let w := print (js "Inspired by terminal life, open source, and creative growth.")
             ClsInfo w in
  let w := print (js "Built with HTML, CSS, JS " ++ emdash
                    ++ js " no frameworks, just curiosity.") ClsInfo w in
  let w := print (js "Concept: Failure logs " ++ arrow ++ js " lessons "
                    ++ arrow ++ js " a changelog of resilience.")
             ClsLine w in
  let w := print (js "Great for classrooms, teams, and solo devs to reframe failure.")
             ClsLine w in
  print (js "--------------------------------") ClsInfo w.

Definition logCmd (w : World) : World :=
  match entries (state w) with
  | [] => print (js "no commits yet " ++ emdash ++ js " make one with commit "
                   ++ quoted "message") ClsWarn w
  | _ =>
      fold_left
        (fun w' e =>
           print (js "commit " ++ entry_id e ++ js " (" ++ entry_date e
                    ++ js ")" ++ nl ++ js "  fail:   " ++ entry_message e
                    ++ nl ++ js "  lesson: " ++ entry_lesson e) ClsOk w')
        (rev (entries (state w))) w
  end.

(** [state.pending.push(p)] *)
Definition push_pending (p : PendingItem) (w : World) : World :=
  set_state (mkState (pending (state w) ++ [p]) (entries (state w))
               (mottos (state w))) w.

Definition commitCmd (h : Host) (message : jsstring) (w : World) : outcome :=
  (* msg = message && message.trim() ? message.trim() : randomFailure() *)
  let msg :=
    if truthy_str (and_str message (trim message))
    then Some (trim message)
    else randomFailure h in
  match msg with
  | None => Throws (ReferenceError (js "randomFailure")) w
  | Some msg =>
      (* the argument of push is evaluated before push is called *)
      match suggestLesson h with
      | None => Throws (ReferenceError (js "suggestLesson")) w
      | Some f =>
          let w := push_pending (mkPending msg (f msg)) w in
          let w := save w in
          let w := print (js "staged 1 file for commit") ClsOk w in
          Done
            (fold_left
               (fun w' p =>
                  print (js "changes staged:" ++ nl ++ js "  fail:   "
                           ++ pending_message p ++ nl ++ js "  lesson: "
                           ++ pending_lesson p) ClsInfo w')
               (lastn 1 (pending (state w))) w)
      end
  end.

(** The entries [pushCmd] makes of the pending items, the first one with
    the i-th answers of the platform. *)
Fixpoint new_entries (env : Env) (i : nat) (ps : list PendingItem)
  : list Entry :=
  match ps with
  | [] => []
  | p :: ps' =>
      mkEntry (shortId (random env i)) (localeDate env i)
        (pending_message p) (pending_lesson p)
      :: new_entries env (S i) ps'
  end.

(** [party(els)] draws in the confetti element only, which is not part
    of [Els]. *)
Definition party (w : World) : World := w.

Definition pushCmd (env : Env) (w : World) : World :=
  match pending (state w) with
  | [] => print (js "nothing to push") ClsWarn w
  | ps =>
      let w := set_state (mkState ps
                            (entries (state w) ++ new_entries env 0 ps)
                            (mottos (state w))) w in
      let w := set_state (mkState [] (entries (state w)) (mottos (state w)))
                 w in
      let w := save w in
      let w := print (js "pushed to origin " ++ tada
                        ++ js " failures celebrated") ClsOk w in
      let w := party w in
      renderHomeLists w
  end.

Definition mottoCmd (text : jsstring) (w : World) : World :=
  (* t = text && text.trim() *)
  let t := and_str text (trim text) in
  if negb (truthy_str t)
  then print (js "usage: motto " ++ quoted "text") ClsWarn w
  else
    let w := set_state (mkState (pending (state w)) (entries (state w))
                          (mottos (state w) ++ [t])) w in
    let w := save w in
    let w := renderHomeLists w in
    print (js "motto added") ClsOk w.

(** [countSince(days)], making the i-th call of [Date.now()]. *)
Definition countSince (env : Env) (i : nat) (days : Z) (w : World) : nat :=
  let since := (now env i - days * 86400000)%Z in
  length (filter (fun e => match dateTime env (entry_date e) with
                           | Some t => (since <=? t)%Z
                           | None => false
                           end)
            (entries (state w))).

Definition decimal (n : nat) : jsstring :=
  js (NilZero.string_of_uint (Nat.to_uint n)).

Definition statsCmd (env : Env) (w : World) : World :=
  let total := length (entries (state w)) in
  let week := countSince env 0 7 w in
  let month := countSince env 1 30 w in
  print (js "stats " ++ arrow ++ js " total: " ++ decimal total
           ++ js ", last 7d: " ++ decimal week
           ++ js ", last 30d: " ++ decimal month) ClsInfo w.

Definition clearScreen (w : World) : World :=
  let e := els w in
  match els_screen e with
  | None => w
  | Some _ =>
      set_els (mkEls (Some []) (els_list e) (els_mottosList e)
                 (els_failsRoot e)) w
  end.

(** [s.toLowerCase()], on the letters A to Z.  The result is only
    compared with the eight command names, and no character outside A to
    Z has a lower case that occurs in them as a single code unit. *)
Definition toLowerCase (s : jsstring) : jsstring :=
  map (fun c => if (65 <=? c) && (c <=? 90) then c + 32 else c) s.

(** An array element printed by [join] or a template: [undefined] is
    empty for [join] and the text undefined for a template. *)
Definition join_text (t : option jsstring) : jsstring :=
  match t with Some x => x | None => [] end.

Definition template_text (t : option jsstring) : jsstring :=
  match t with Some x => x | None => js "undefined" end.

Definition handleCommand (h : Host) (env : Env) (raw : jsstring) (w : World)
  : result outcome :=
  match tokenize raw with
  | Diverges => Diverges
  | Returns toks =>
      (* const [cmd, ...rest] = tokenize(raw) *)
      let cmd := match toks with [] => None | t :: _ => t end in
      let rest := tl toks in
      let c := toLowerCase (join_text cmd) in
      let arg := join (js " ") (map join_text rest) in
      Returns
        (if jsstring_eqb c (js "help") then Done (help w)
         else if jsstring_eqb c (js "about") then Done (aboutCmd w)
         else if jsstring_eqb c (js "log") then Done (logCmd w)
         else if jsstring_eqb c (js "commit") then commitCmd h arg w
         else if jsstring_eqb c (js "push") then Done (pushCmd env w)
         else if jsstring_eqb c (js "clear") then Done (clearScreen w)
         else if jsstring_eqb c (js "motto") then Done (mottoCmd arg w)
         else if jsstring_eqb c (js "stats") then Done (statsCmd env w)
         else Done (print (js "git: '" ++ template_text cmd
                             ++ js "' is not a git command. See 'help'.")
                      ClsErr w))
  end.

(** ** The delete button of the fail-log page *)

(** [xs.findIndex(f)]; [None] is -1. *)
Fixpoint findIndex {A} (f : A -> bool) (xs : list A) : option nat :=
  match xs with
  | [] => None
  | x :: xs' =>
      if f x then Some O
      else match findIndex f xs' with
           | Some i => Some (S i)
           | None => None
           end
  end.

(** [xs.splice(idx, 1)] *)
Definition splice1 {A} (idx : nat) (xs : list A) : list A :=
  firstn idx xs ++ skipn (S idx) xs.

(** The click handler of the row rendered for an entry with id [eid]. *)
Definition deleteClick (eid : jsstring) (w : World) : outcome :=
  match findIndex (fun x => jsstring_eqb (entry_id x) eid)
          (entries (state w)) with
  | Some idx =>
      let w := set_state (mkState (pending (state w))
                            (splice1 idx (entries (state w)))
                            (mottos (state w))) w in
      let w := save w in
      renderFailsPage w
  | None => Done w
  end.

(** ** The command line of the home page *)

(** [a || b] on strings. *)
Definition or_str (a b : jsstring) : jsstring :=
  if truthy_str a then a else b.

(** The submit handler [initHome] gives the command line, for the text
    [value] in the input: the line is trimmed, an empty line is ignored,
    any other line is echoed after a dollar sign and handled.  The result
    is how the handler ended and the text in the input afterwards: the
    input is emptied by the last statement, which an exception skips. *)
Definition cliSubmit (h : Host) (env : Env) (value : jsstring) (w : World)
  : result (outcome * jsstring) :=
  let raw := trim (or_str value []) in
  if negb (truthy_str raw) then Returns (Done w, value)
  else
    match handleCommand h env raw (print (js "$ " ++ raw) ClsLine w) with
    | Diverges => Diverges
    | Returns (Done w') => Returns (Done w', [])
    | Returns (Throws e w') => Returns (Throws e w', value)
    end.

(** ** The mottos page *)

(** [renderMottosPage(els)]: the texts of the list items it puts under
    the mottos-root element, one for each motto in the order they are
    stored.  The element is not part of [Els]; the list is what the page
    shows after the call. *)
Definition renderMottosPage (w : World) : list jsstring := mottos (state w).

(** The submit handler of the form of the mottos page, for the text
    [value] in the input: the world afterwards, and the list the page
    shows when the handler renders it again. *)
Definition mottoFormSubmit (value : jsstring) (w : World)
  : World * option (list jsstring) :=
  let val := trim (or_str value []) in
  if negb (truthy_str val) then (w, None)
  else
    let w := set_state (mkState (pending (state w)) (entries (state w))
                          (mottos (state w) ++ [val])) w in
    let w := save w in
    (w, Some (renderMottosPage w)).

(** ** The scan rule of the tokenizer, in words

    What one step of the scan does according to the description of the
    tokenizer: skip white space; at a quote that is closed later, the
    token is the text between the two quotes; anywhere else the token is
    the longest run of non-space characters. *)

(** The text before the first [q], and the text after it. *)
Fixpoint split_at (q : N) (s : jsstring) : option (jsstring * jsstring) :=
  match s with
  | [] => None
  | c :: s' =>
      if c =? q then Some ([], s')
      else match split_at q s' with
           | Some (body, rest) => Some (c :: body, rest)
           | None => None
           end
  end.

(** The longest prefix of non-space characters, and the rest. *)
Fixpoint span_nonspace (s : jsstring) : jsstring * jsstring :=
  match s with
  | [] => ([], [])
  | c :: s' =>
      if is_space c then ([], s)
      else let (run, rest) := span_nonspace s' in (c :: run, rest)
  end.

(** The quoted run that starts with the character [c] followed by [t]. *)
Definition quoted_run (c : N) (t : jsstring) : option (jsstring * jsstring) :=
  if c =? dquote then split_at dquote t
  else if c =? squote then split_at squote t
  else None.

(** The next token and the text after it. *)
Fixpoint next_token (s : jsstring) : option (jsstring * jsstring) :=
  match s with
  | [] => None
  | c :: t =>
      if is_space c then next_token t
      else match quoted_run c t with
           | Some (body, rest) => Some (body, rest)
           | None => let (run, rest) := span_nonspace t in
                     Some (c :: run, rest)
           end
  end.

Definition map_result {A B} (f : A -> B) (r : result A) : result B :=
  match r with
  | Returns a => Returns (f a)
  | Diverges => Diverges
  end.

Definition top : cont := fun s' cs' => Some (s', cs').

(** ** Notions used in the statements *)

Definition stops (a : atom) (s : jsstring) : Prop :=
  match s with
  | [] => True
  | c :: _ => atom_ok a c = false
  end.

(** The text after a bare token: the end of the line, or white space. *)
Definition run_ends (rest : jsstring) : Prop :=
  match rest with
  | [] => True
  | d :: _ => is_space d = true
  end.

(** The characters that open or close a tag or an attribute value. *)
Definition is_markup (c : N) : bool :=
  (c =? 60) || (c =? 62) || (c =? dquote) || (c =? squote).

(** How a browser reads text that holds the five character references
    [escapeHtml] writes: each stands for its character. *)
Fixpoint decode_entities (s : jsstring) : jsstring :=
  match s with
  | 38 :: 97 :: 109 :: 112 :: 59 :: s' => 38 :: decode_entities s'
  | 38 :: 108 :: 116 :: 59 :: s' => 60 :: decode_entities s'
  | 38 :: 103 :: 116 :: 59 :: s' => 62 :: decode_entities s'
  | 38 :: 113 :: 117 :: 111 :: 116 :: 59 :: s' => 34 :: decode_entities s'
  | 38 :: 35 :: 51 :: 57 :: 59 :: s' => 39 :: decode_entities s'
  | c :: s' => c :: decode_entities s'
  | [] => []
  end.

Definition is_special (c : N) : bool :=
  atom_ok (OneOf [38; 60; 62; dquote; squote]) c.

(** The characters 0 to 9 and a to z. *)
Definition is_base36 (c : N) : bool :=
  ((48 <=? c) && (c <=? 57)) || ((97 <=? c) && (c <=? 122)).

(** The message [commitCmd] stages. *)
Definition staged_message (canned message : jsstring) : jsstring :=
  match trim message with
  | [] => canned
  | _ => trim message
  end.

(** The first token of a command line, the command it selects and the
    argument text the handler gets. *)
Definition first_token (raw : jsstring) : option jsstring :=
  match tokenize raw with
  | Returns (t :: _) => t
  | _ => None
  end.

Definition command_of (raw : jsstring) : jsstring :=
  toLowerCase (join_text (first_token raw)).

Definition argument_of (raw : jsstring) : jsstring :=
  match tokenize raw with
  | Returns toks => join (js " ") (map join_text (tl toks))
  | Diverges => []
  end.

(** The eight command names. *)
Definition command_names : list jsstring :=
  [js "help"; js "about"; js "log"; js "commit"; js "push"; js "clear";
   js "motto"; js "stats"].

(** The stored record is the state in memory. *)
Definition in_sync (w : World) : Prop :=
  storage w = saveState (state_json (state w)).

(** A word without white space and quotes. *)
Definition plain_char (c : N) : bool :=
  negb (is_space c) && negb (c =? dquote) && negb (c =? squote).

Definition plain_word (x : jsstring) : Prop :=
  x <> [] /\ Forall (fun c => plain_char c = true) x.

(** The text [log] prints for an entry. *)
Definition log_text (e : Entry) : jsstring :=
  js "commit " ++ entry_id e ++ js " (" ++ entry_date e ++ js ")" ++ nl
  ++ js "  fail:   " ++ entry_message e ++ nl ++ js "  lesson: "
  ++ entry_lesson e.

(** A text that is not blank. *)
Definition not_blank (text : jsstring) : bool := truthy_str (trim text).

(** The screen of [w'] is the screen of [w] with the lines [more] after
    it. *)
Definition appended (more : list line) (w w' : World) : Prop :=
  els_screen (els w')
  = option_map (fun ls => ls ++ more) (els_screen (els w)).

(** The number of lines a command prints. *)
Definition lines_added (c : jsstring) (w : World) (o : outcome) : nat :=
  if jsstring_eqb c (js "help") then 8
  else if jsstring_eqb c (js "about") then 8
  else if jsstring_eqb c (js "log")
       then Nat.max 1 (length (entries (state w)))
  else if jsstring_eqb c (js "commit")
       then match o with Done _ => 2 | Throws _ _ => 0 end
  else 1.

(** The parts of a row around the message and the lesson: the text up to
    the message, the text between the message and the lesson, and the
    text after the lesson, which holds the id and the date. *)
Definition fail_row_head : jsstring :=
  nl ++ js "        <span class=" ++ quoted "badge" ++ js ">fail</span>"
  ++ nl ++ js "        <div>"
  ++ nl ++ js "          <p class=" ++ quoted "lesson" ++ js "><strong>".

Definition home_row_head : jsstring :=
  nl ++ js "          <span class=" ++ quoted "badge" ++ js ">fail</span>"
  ++ nl ++ js "          <div>"
  ++ nl ++ js "            <p class=" ++ quoted "lesson" ++ js "><strong>".

Definition row_between : jsstring := js "</strong><br/>" ++ arrow ++ js " ".

Definition fail_row_tail (id date : jsstring) : jsstring :=
  js "</p>"
  ++ nl ++ js "          <p class=" ++ quoted "meta" ++ js ">commit "
  ++ id ++ js " " ++ bullet ++ js " " ++ date ++ js "</p>"
  ++ nl ++ js "        </div>"
  ++ nl ++ js "        <button class=" ++ quoted "btn-del"
  ++ js " aria-label=" ++ quoted "delete entry"
  ++ js " title=" ++ quoted "delete" ++ js ">" ++ times ++ js "</button>"
  ++ nl ++ js "      ".

Definition home_row_tail (id date : jsstring) : jsstring :=
  js "</p>"
  ++ nl ++ js "            <p class=" ++ quoted "meta" ++ js ">commit "
  ++ id ++ js " " ++ bullet ++ js " " ++ date ++ js "</p>"
  ++ nl ++ js "          </div>"
  ++ nl ++ js "        ".

(** Reading markup as a browser does where the rows put the message and
    the lesson: [after_mark m html] is the markup that follows the first
    occurrence of [m]; [text_before_tag] is the character data up to the
    next tag; [shown_after m html] is the text shown there, with the
    character references replaced by their characters. *)
Fixpoint starts_with (m s : jsstring) : bool :=
  match m, s with
  | [], _ => true
  | a :: m', b :: s' => (a =? b) && starts_with m' s'
  | _ :: _, [] => false
  end.

Fixpoint after_mark (m s : jsstring) : jsstring :=
  match s with
  | [] => []
  | _ :: s' => if starts_with m s then skipn (length m) s else after_mark m s'
  end.

Fixpoint text_before_tag (s : jsstring) : jsstring :=
  match s with
  | [] => []
  | c :: s' => if c =? 60 then [] else c :: text_before_tag s'
  end.

Definition shown_after (m html : jsstring) : jsstring :=
  decode_entities (text_before_tag (after_mark m html)).

(** The markup right before the message, and right before the lesson. *)
Definition message_mark : jsstring := js "<strong>".
Definition lesson_mark : jsstring := js "<br/>" ++ arrow ++ js " ".

(** What [loadState] reads from the stored record is the state. *)
Definition reads_back (w : World) : Prop :=
  loadState (storage w) = state_json (state w).

(** ** Sample inputs *)

Definition commit_fix_prod_now : jsstring :=
  js "commit " ++ [dquote] ++ js "fix prod" ++ [dquote] ++ js " now".

(** A line whose only quote is never closed. *)
Definition open_quote_line : jsstring := dquote :: js "abc".

(** A line with both kinds of quotes: it's in double quotes, then
    say, a double-quoted hi inside single quotes. *)
Definition mixed_quotes_line : jsstring :=
  dquote :: js "it's" ++ dquote :: space
  :: squote :: (js "say " ++ dquote :: js "hi" ++ [dquote]) ++ [squote].

(** A record that is proper JSON but not a state. *)
Definition foreign_record : item :=
  JsonText (JObj [(js "foo", JNum 1)]).

(** Answers of the platform for the examples: the i-th draw prints the
    digit i and then ten more digits, and the date is always the same. *)
Definition sample_env : Env :=
  mkEnv (fun i => N.of_nat i :: [1; 2; 3; 4; 5; 6; 7; 8; 9; 10])
        (fun _ => js "11/2/2026")
        (fun _ => 1793577600000%Z)
        (fun _ => Some 1793577600000%Z).

(** The draws are all the same number. *)
Definition repeat_env : Env :=
  mkEnv (fun _ => [1; 2; 3; 4; 5; 6; 7; 8; 9; 10; 11])
        (fun _ => js "11/2/2026")
        (fun _ => 1793577600000%Z)
        (fun _ => Some 1793577600000%Z).

Definition home_els : Els := mkEls (Some []) (Some []) (Some []) None.

Definition two_pending_world : World :=
  mkWorld
    (mkState [mkPending (js "a") (js "b"); mkPending (js "c") (js "d")] [] [])
    NoItem home_els.

(** A state as the script seeds it, shown on the home page. *)
Definition seeded_world : World :=
  mkWorld (defaultState sample_env)
    (saveState (state_json (defaultState sample_env))) home_els.

(** The same state on the fail-log page. *)
Definition fails_page_world : World :=
  mkWorld (defaultState sample_env)
    (saveState (state_json (defaultState sample_env)))
    (mkEls None None None (Some [])).

(** The first entry the script seeds. *)
Definition first_seed : Entry :=
  mkEntry (shortId (random sample_env 0)) (localeDate sample_env 0)
    (js "Pushed broken config to prod")
    (js "Add CI checks & use feature flags").

(** Nothing staged and nothing logged, on the home page. *)
Definition empty_world : World :=
  mkWorld (mkState [] [] []) (saveState (state_json (mkState [] [] [])))
    home_els.

(** A page that binds the two names [commitCmd] needs. *)
Definition sample_host : Host :=
  mkHost (Some (fun msg => js "lesson for " ++ msg)) (Some (js "It broke")).

Definition commit_X : jsstring := js "commit " ++ quoted "X".

(** One item staged, on top of two entries. *)
Definition one_pending_world : World :=
  mkWorld
    (mkState [mkPending (js "a") (js "b")] (seedEntries repeat_env)
       seedMottos)
    NoItem (mkEls None None None (Some [])).

(** An entry whose message is markup and whose lesson holds an ampersand
    and quotes. *)
Definition script_entry : Entry :=
  mkEntry (js "abc1234") (js "11/2/2026")
    (js "<script>alert(1)</script>")
    (js "Tom & Jerry's " ++ quoted "plan").

(** * Properties *)

(** ** The matcher *)

Lemma star_match_greedy (a : atom) (body rest : jsstring) (cs : captures)
    (k : cont) (r : jsstring * captures) :
  Forall (fun c => atom_ok a c = true) body ->
  stops a rest ->
  k rest cs = Some r ->
  star_match a (body ++ rest) cs k = Some r.
Proof.
  intros Hb Hs Hk.
  induction Hb as [|c body' Hc _ IH]; simpl.
  - destruct rest as [|c rest']; simpl in *; [assumption|].
    now rewrite Hs.
  - now rewrite Hc, IH.
Qed.

Lemma star_match_none (a : atom) (s : jsstring) (cs : captures) (k : cont) :
  (forall p t, s = p ++ t -> k t cs = None) ->
  star_match a s cs k = None.
Proof.
  induction s as [|c s' IH]; intros H; simpl.
  - apply (H [] []); reflexivity.
  - assert (Hk : k (c :: s') cs = None) by (apply (H [] (c :: s')); reflexivity).
    destruct (atom_ok a c); [|assumption].
    rewrite IH; [assumption|].
    intros p t ->. apply (H (c :: p) t). reflexivity.
Qed.

Lemma firstn_app_exact {A} (l1 l2 : list A) :
  firstn (length (l1 ++ l2) - length l2) (l1 ++ l2) = l1.
Proof.
  rewrite length_app.
  replace (length l1 + length l2 - length l2)%nat with (length l1) by lia.
  rewrite firstn_app, Nat.sub_diag, firstn_all. simpl. apply app_nil_r.
Qed.

Lemma space_not_quote (c : N) :
  is_space c = true -> (c =? dquote) = false /\ (c =? squote) = false.
Proof.
  intros H. split.
  - destruct (N.eqb_spec c dquote) as [->|]; [discriminate|reflexivity].
  - destruct (N.eqb_spec c squote) as [->|]; [discriminate|reflexivity].
Qed.

(** A quote and the text up to the next quote of the same kind match the
    quoted alternative, and the group holds the text between them. *)
Lemma quoted_alt_match (q : N) (i : nat) (body rest : jsstring)
    (cs : captures) :
  ~ In q body ->
  rmatch (quoted_alt q i) (q :: body ++ q :: rest) cs top
  = Some (rest, set_capture i body cs).
Proof.
  intros Hq. simpl. rewrite N.eqb_refl.
  apply star_match_greedy.
  - apply Forall_forall. intros c Hc. simpl.
    destruct (N.eqb_spec c q) as [->|]; [contradiction|reflexivity].
  - simpl. now rewrite N.eqb_refl.
  - rewrite N.eqb_refl. unfold top.
    now rewrite (firstn_app_exact body (q :: rest)).
Qed.

(** A quote that is never closed does not match the quoted alternative. *)
Lemma quoted_alt_open (q : N) (i : nat) (t : jsstring) (cs : captures)
    (k : cont) :
  ~ In q t ->
  rmatch (quoted_alt q i) (q :: t) cs k = None.
Proof.
  intros Hq. simpl. rewrite N.eqb_refl.
  apply star_match_none. intros p u ->.
  destruct u as [|c u']; [reflexivity|].
  destruct (N.eqb_spec c q) as [->|]; [|reflexivity].
  exfalso. apply Hq. apply in_or_app. right. now left.
Qed.

(** A character other than the quote does not start the quoted
    alternative. *)
Lemma quoted_alt_other (q c : N) (i : nat) (t : jsstring) (cs : captures)
    (k : cont) :
  (c =? q) = false ->
  rmatch (quoted_alt q i) (c :: t) cs k = None.
Proof. intros H. simpl. now rewrite H. Qed.

(** A run of non-space characters that ends at a space or at the end of
    the text matches the third alternative as a whole. *)
Lemma bare_alt_match (c : N) (run rest : jsstring) (cs : captures) :
  is_space c = false ->
  Forall (fun d => is_space d = false) run ->
  stops NonSpace rest ->
  rmatch bare_alt (c :: run ++ rest) cs top
  = Some (rest, set_capture 2 (c :: run) cs).
Proof.
  intros Hc Hrun Hrest. unfold bare_alt. cbn [rmatch atom_ok].
  rewrite Hc. cbn [negb].
  apply star_match_greedy.
  - apply Forall_forall. intros d Hd. cbn [atom_ok].
    rewrite Forall_forall in Hrun. now rewrite (Hrun d Hd).
  - assumption.
  - unfold top.
    change (c :: run ++ rest) with ((c :: run) ++ rest).
    now rewrite (firstn_app_exact (c :: run) rest).
Qed.

Lemma bare_alt_space (c : N) (t : jsstring) (cs : captures) (k : cont) :
  is_space c = true -> rmatch bare_alt (c :: t) cs k = None.
Proof. intros H. simpl. now rewrite H. Qed.

Lemma token_re_alts (s : jsstring) (cs : captures) (k : cont) :
  rmatch token_re s cs k =
  match rmatch (quoted_alt dquote 0) s cs k with
  | Some r => Some r
  | None =>
      match rmatch (quoted_alt squote 1) s cs k with
      | Some r => Some r
      | None => rmatch bare_alt s cs k
      end
  end.
Proof. reflexivity. Qed.

Lemma exec_cons (r : regex) (c : N) (t : jsstring) :
  exec r (c :: t) =
  match rmatch r (c :: t) [] top with
  | Some res => Some res
  | None => exec r t
  end.
Proof. reflexivity. Qed.

Lemma split_at_spec (q : N) (s body rest : jsstring) :
  split_at q s = Some (body, rest) ->
  s = body ++ q :: rest /\ ~ In q body.
Proof.
  revert body rest. induction s as [|c s' IH]; intros body rest; simpl.
  - discriminate.
  - destruct (N.eqb_spec c q) as [->|Hne].
    + intros [= <- <-]. split; [reflexivity|intros []].
    + destruct (split_at q s') as [[b r]|]; [|discriminate].
      intros [= <- <-]. destruct (IH b r eq_refl) as [-> Hb].
      split; [reflexivity|]. intros [H|H]; [congruence|contradiction].
Qed.

Lemma split_at_none (q : N) (s : jsstring) :
  split_at q s = None -> ~ In q s.
Proof.
  induction s as [|c s' IH]; simpl; [intros _ []|].
  destruct (N.eqb_spec c q) as [->|Hne]; [discriminate|].
  destruct (split_at q s') as [[b r]|]; [discriminate|].
  intros _ [H|H]; [congruence|now apply IH].
Qed.

Lemma split_at_first (q : N) (body rest : jsstring) :
  ~ In q body -> split_at q (body ++ q :: rest) = Some (body, rest).
Proof.
  induction body as [|c body' IH]; intros H; simpl.
  - now rewrite N.eqb_refl.
  - destruct (N.eqb_spec c q) as [->|Hne].
    + exfalso. apply H. now left.
    + rewrite IH; [reflexivity|]. intros Hin. apply H. now right.
Qed.

Lemma split_at_absent (q : N) (s : jsstring) :
  ~ In q s -> split_at q s = None.
Proof.
  intros H. destruct (split_at q s) as [[b r]|] eqn:E; [|reflexivity].
  apply split_at_spec in E. destruct E as [-> _].
  exfalso. apply H. apply in_or_app. right. now left.
Qed.

Lemma span_nonspace_spec (s run rest : jsstring) :
  span_nonspace s = (run, rest) ->
  s = run ++ rest /\ Forall (fun d => is_space d = false) run
  /\ stops NonSpace rest.
Proof.
  revert run rest. induction s as [|c s' IH]; intros run rest; simpl.
  - intros [= <- <-]. repeat split. constructor.
  - destruct (is_space c) eqn:Hc.
    + intros [= <- <-]. repeat split; [constructor|]. simpl. now rewrite Hc.
    + destruct (span_nonspace s') as [r1 r2]. intros [= <- <-].
      destruct (IH r1 r2 eq_refl) as (-> & Hr & Hs).
      repeat split; [|assumption]. now constructor.
Qed.

Lemma span_nonspace_run (run rest : jsstring) :
  Forall (fun d => is_space d = false) run ->
  stops NonSpace rest ->
  span_nonspace (run ++ rest) = (run, rest).
Proof.
  intros Hrun Hrest. induction Hrun as [|c run' Hc _ IH]; simpl.
  - destruct rest as [|d rest']; [reflexivity|].
    simpl in Hrest. apply negb_false_iff in Hrest. simpl. now rewrite Hrest.
  - now rewrite Hc, IH.
Qed.

Lemma quoted_run_spec (c : N) (t body rest : jsstring) :
  quoted_run c t = Some (body, rest) ->
  (c = dquote \/ c = squote) /\ t = body ++ c :: rest /\ ~ In c body.
Proof.
  unfold quoted_run.
  destruct (N.eqb_spec c dquote) as [->|H1].
  - intros H. apply split_at_spec in H. intuition.
  - destruct (N.eqb_spec c squote) as [->|H2]; [|discriminate].
    intros H. apply split_at_spec in H. intuition.
Qed.

(** One call of [exec] finds the token the scan rule describes. *)
Lemma exec_next_token (s : jsstring) :
  match next_token s with
  | Some (tok, rest) =>
      exists m, exec token_re s = Some (rest, m) /\ token_of m = Some tok
  | None => exec token_re s = None
  end.
Proof.
  induction s as [|c t IH]; [reflexivity|].
  rewrite exec_cons, token_re_alts. simpl next_token.
  destruct (is_space c) eqn:Hc.
  - destruct (space_not_quote c Hc) as [H1 H2].
    rewrite (quoted_alt_other dquote c 0 t [] top H1).
    rewrite (quoted_alt_other squote c 1 t [] top H2).
    rewrite (bare_alt_space c t [] top Hc). exact IH.
  - clear IH. destruct (quoted_run c t) as [[body rest]|] eqn:Hq.
    + destruct (quoted_run_spec c t body rest Hq) as ([-> | ->] & -> & Hb).
      * rewrite (quoted_alt_match dquote 0 body rest [] Hb).
        eexists; split; reflexivity.
      * rewrite (quoted_alt_other dquote squote 0 _ [] top eq_refl).
        rewrite (quoted_alt_match squote 1 body rest [] Hb).
        eexists; split; reflexivity.
    + destruct (span_nonspace t) as [run rest] eqn:Hs.
      destruct (span_nonspace_spec t run rest Hs) as (-> & Hrun & Hrest).
      assert (H1 : rmatch (quoted_alt dquote 0) (c :: run ++ rest) [] top
                   = None).
      { unfold quoted_run in Hq.
        destruct (N.eqb_spec c dquote) as [->|Hne].
        - apply quoted_alt_open. now apply split_at_none.
        - apply quoted_alt_other. now apply N.eqb_neq. }
      assert (H2 : rmatch (quoted_alt squote 1) (c :: run ++ rest) [] top
                   = None).
      { unfold quoted_run in Hq.
        destruct (N.eqb_spec c dquote) as [->|Hne].
        - now apply quoted_alt_other.
        - destruct (N.eqb_spec c squote) as [->|Hne2].
          + apply quoted_alt_open. now apply split_at_none.
          + apply quoted_alt_other. now apply N.eqb_neq. }
      rewrite H1, H2, (bare_alt_match c run rest [] Hc Hrun Hrest).
      eexists; split; reflexivity.
Qed.

(** ** The loop of tokenize *)

Lemma next_token_shorter (s tok rest : jsstring) :
  next_token s = Some (tok, rest) -> (length rest < length s)%nat.
Proof.
  induction s as [|c t IH]; simpl; [discriminate|].
  destruct (is_space c).
  - intros H. specialize (IH H). lia.
  - destruct (quoted_run c t) as [[body r]|] eqn:Hq.
    + intros [= <- <-].
      destruct (quoted_run_spec c t body r Hq) as (_ & -> & _).
      rewrite length_app. simpl. lia.
    + destruct (span_nonspace t) as [run r] eqn:Hs. intros [= <- <-].
      destruct (span_nonspace_spec t run r Hs) as (-> & _ & _).
      rewrite length_app. lia.
Qed.

(** Every match of the expression is at least one character long, so
    [lastIndex] moves forward at every turn of the loop. *)
Lemma exec_shorter (s rest : jsstring) (m : captures) :
  exec token_re s = Some (rest, m) -> (length rest < length s)%nat.
Proof.
  intros H. pose proof (exec_next_token s) as Hn.
  destruct (next_token s) as [[tok r]|] eqn:E.
  - destruct Hn as (m' & Hm & _). rewrite H in Hm. injection Hm as <- <-.
    now apply (next_token_shorter s tok).
  - congruence.
Qed.

Lemma tokenize_loop_total (n : nat) (s : jsstring)
    (out : list (option jsstring)) :
  (length s < n)%nat -> exists l, tokenize_loop n s out = Returns l.
Proof.
  revert s out. induction n as [|n IH]; intros s out Hn; [lia|].
  simpl. destruct (exec token_re s) as [[rest m]|] eqn:E.
  - apply IH. apply exec_shorter in E. lia.
  - now exists out.
Qed.

Lemma tokenize_loop_mono (n m : nat) (s : jsstring)
    (out l : list (option jsstring)) :
  tokenize_loop n s out = Returns l -> (n <= m)%nat ->
  tokenize_loop m s out = Returns l.
Proof.
  revert m s out. induction n as [|n IH]; intros m s out H Hm.
  - discriminate.
  - destruct m as [|m]; [lia|]. simpl in *.
    destruct (exec token_re s) as [[rest c]|]; [|assumption].
    apply IH; [assumption|lia].
Qed.

Lemma tokenize_loop_acc (n : nat) (s : jsstring)
    (out : list (option jsstring)) :
  tokenize_loop n s out = map_result (app out) (tokenize_loop n s []).
Proof.
  revert s out. induction n as [|n IH]; intros s out; simpl; [reflexivity|].
  destruct (exec token_re s) as [[rest m]|].
  - rewrite (IH rest (out ++ _)), (IH rest [_]).
    destruct (tokenize_loop n rest []); simpl; [|reflexivity].
    now rewrite <- app_assoc.
  - simpl. now rewrite app_nil_r.
Qed.

(** [tokenize] always returns. *)
Lemma tokenize_total (s : jsstring) : exists l, tokenize s = Returns l.
Proof. apply tokenize_loop_total. lia. Qed.

(** The first match gives the first token, and the loop goes on with the
    text after the match. *)
Lemma tokenize_step (s rest : jsstring) (m : captures) :
  exec token_re s = Some (rest, m) ->
  tokenize s = map_result (cons (token_of m)) (tokenize rest).
Proof.
  intros E. unfold tokenize at 1. simpl. rewrite E.
  rewrite tokenize_loop_acc.
  destruct (tokenize_total rest) as [l Hl]. rewrite Hl.
  rewrite (tokenize_loop_mono _ (length s) rest [] l Hl); [reflexivity|].
  apply exec_shorter in E. lia.
Qed.

Lemma tokenize_stop (s : jsstring) :
  exec token_re s = None -> tokenize s = Returns [].
Proof. intros E. unfold tokenize. simpl. now rewrite E. Qed.

(** The tokens in terms of the scan rule. *)
Lemma tokenize_next (s : jsstring) :
  tokenize s =
  match next_token s with
  | Some (tok, rest) => map_result (cons (Some tok)) (tokenize rest)
  | None => Returns []
  end.
Proof.
  pose proof (exec_next_token s) as H.
  destruct (next_token s) as [[tok rest]|].
  - destruct H as (m & E & Ht). rewrite (tokenize_step s rest m E).
    now rewrite Ht.
  - now apply tokenize_stop.
Qed.

(** ** Tokenizer: the scan rule *)

Lemma run_ends_stops (rest : jsstring) : run_ends rest -> stops NonSpace rest.
Proof.
  destruct rest as [|d r]; simpl; [trivial|]. intros ->. reflexivity.
Qed.

Lemma tokenize_space (c : N) (s : jsstring) :
  is_space c = true -> tokenize (c :: s) = tokenize s.
Proof.
  intros Hc. rewrite (tokenize_next (c :: s)), (tokenize_next s).
  simpl. now rewrite Hc.
Qed.

Lemma tokenize_quoted (q : N) (body rest : jsstring) :
  q = dquote \/ q = squote ->
  ~ In q body ->
  tokenize (q :: body ++ q :: rest)
  = map_result (cons (Some body)) (tokenize rest).
Proof.
  intros Hq Hb. rewrite tokenize_next. simpl.
  assert (Hs : is_space q = false) by (destruct Hq as [-> | ->]; reflexivity).
  rewrite Hs.
  assert (Hr : quoted_run q (body ++ q :: rest) = Some (body, rest)).
  { unfold quoted_run. destruct Hq as [-> | ->]; simpl;
      now apply split_at_first. }
  now rewrite Hr.
Qed.

Lemma tokenize_bare (c : N) (run rest : jsstring) :
  is_space c = false ->
  Forall (fun d => is_space d = false) run ->
  run_ends rest ->
  (c = dquote -> ~ In dquote (run ++ rest)) ->
  (c = squote -> ~ In squote (run ++ rest)) ->
  tokenize (c :: run ++ rest)
  = map_result (cons (Some (c :: run))) (tokenize rest).
Proof.
  intros Hc Hrun Hrest Hd Hs. rewrite tokenize_next. simpl. rewrite Hc.
  assert (Hq : quoted_run c (run ++ rest) = None).
  { unfold quoted_run.
    destruct (N.eqb_spec c dquote) as [E|_];
      [now apply split_at_absent, Hd|].
    destruct (N.eqb_spec c squote) as [E|_];
      [now apply split_at_absent, Hs|reflexivity]. }
  rewrite Hq.
  now rewrite (span_nonspace_run run rest Hrun (run_ends_stops rest Hrest)).
Qed.

(** C3.  [tokenize] returns on every line, and its result is fixed by the
    scan from left to right: white space before a token is skipped; where
    the scan stands at a double quote that is closed later, the token is
    the text between the two quotes, spaces included, and the scan goes on
    after the closing quote; the same holds for the single quote; where
    the scan stands at any other non-space character, the token is the
    longest run of non-space characters from there; the empty line has no
    token.  The tokens come in scan order, and the line
    commit, quoted fix prod, now has the three tokens commit, fix prod
    and now. *)
Theorem tokenize_scan_rule :
  (forall s, exists toks, tokenize s = Returns toks) /\
  tokenize [] = Returns [] /\
  (forall c s, is_space c = true -> tokenize (c :: s) = tokenize s) /\
  (forall body rest, ~ In dquote body ->
     tokenize (dquote :: body ++ dquote :: rest)
     = map_result (cons (Some body)) (tokenize rest)) /\
  (forall body rest, ~ In squote body ->
     tokenize (squote :: body ++ squote :: rest)
     = map_result (cons (Some body)) (tokenize rest)) /\
  (forall c run rest,
     is_space c = false ->
     Forall (fun d => is_space d = false) run ->
     run_ends rest ->
     (c = dquote -> ~ In dquote (run ++ rest)) ->
     (c = squote -> ~ In squote (run ++ rest)) ->
     tokenize (c :: run ++ rest)
     = map_result (cons (Some (c :: run))) (tokenize rest)) /\
  tokenize commit_fix_prod_now
  = Returns [Some (js "commit"); Some (js "fix prod"); Some (js "now")].
Proof.
  split; [exact tokenize_total|].
  split; [reflexivity|].
  split; [exact tokenize_space|].
  split; [intros body rest; apply tokenize_quoted; now left|].
  split; [intros body rest; apply tokenize_quoted; now right|].
  split; [exact tokenize_bare|].
  vm_compute. reflexivity.
Qed.

Lemma tokenize_scan_rule_witness :
  tokenize (space :: dquote :: js "a b" ++ dquote :: js " c")
  = Returns [Some (js "a b"); Some (js "c")].
Proof.
  destruct tokenize_scan_rule as (_ & _ & Hsp & Hdq & _ & Hbare & _).
  rewrite (Hsp space _ eq_refl).
  rewrite (Hdq (js "a b") (js " c"));
    [|intros H; vm_compute in H; intuition discriminate].
  change (js " c") with (space :: js "c").
  rewrite (Hsp space _ eq_refl).
  change (js "c") with (99 :: [] ++ []).
  rewrite (Hbare 99 [] []); try reflexivity; try discriminate.
  constructor.
Defined.

(** ** Tokenizer: lines without tokens, and quotes that are not closed *)

Lemma next_token_nonspace (c : N) (t : jsstring) :
  is_space c = false -> exists tok rest, next_token (c :: t) = Some (tok, rest).
Proof.
  intros Hc. simpl. rewrite Hc.
  destruct (quoted_run c t) as [[body rest]|]; [now eauto|].
  destruct (span_nonspace t) as [run rest]. now eauto.
Qed.

Lemma tokenize_nil_iff (s : jsstring) :
  tokenize s = Returns [] <-> Forall (fun c => is_space c = true) s.
Proof.
  induction s as [|c t IH].
  - split; [constructor|reflexivity].
  - destruct (is_space c) eqn:Hc.
    + rewrite (tokenize_space c t Hc), IH. split.
      * intros H. now constructor.
      * intros H. now inversion H.
    + split.
      * intros H. rewrite tokenize_next in H.
        destruct (next_token_nonspace c t Hc) as (tok & rest & E).
        rewrite E in H. destruct (tokenize rest); discriminate.
      * intros H. inversion H. congruence.
Qed.

Lemma tokenize_open_quote (q : N) (t : jsstring) :
  q = dquote \/ q = squote ->
  ~ In q t ->
  exists run rest,
    t = run ++ rest /\
    Forall (fun d => is_space d = false) run /\
    run_ends rest /\
    tokenize (q :: t) = map_result (cons (Some (q :: run))) (tokenize rest).
Proof.
  intros Hq Hin.
  destruct (span_nonspace t) as [run rest] eqn:Hs.
  destruct (span_nonspace_spec t run rest Hs) as (-> & Hrun & Hrest).
  assert (Hends : run_ends rest).
  { destruct rest as [|d r]; simpl in *; [trivial|].
    now apply negb_false_iff in Hrest. }
  exists run, rest. repeat split; try assumption.
  apply tokenize_bare; try assumption.
  - destruct Hq as [-> | ->]; reflexivity.
  - intros ->. assumption.
  - intros ->. assumption.
Qed.

(** C10, as stated, fails: the line made of a double quote and abc has a
    quote that is never closed, and [tokenize] returns one token for it,
    the whole line with the quote, not the empty sequence. *)
Lemma unclosed_quote_counterexample :
  count_occ N.eq_dec open_quote_line dquote = 1%nat /\
  tokenize open_quote_line = Returns [Some open_quote_line] /\
  tokenize open_quote_line <> Returns [].
Proof.
  split; [reflexivity|].
  split; [vm_compute; reflexivity|].
  vm_compute. discriminate.
Qed.

(** C10, amended.  [tokenize] yields the empty sequence exactly for the
    lines that are empty or hold white space only.  A quote that is never
    closed does not empty the result: where the scan stands at such a
    quote, the token is the quote together with the run of non-space
    characters after it.  The two kinds of quotes do not interfere: the
    text between two double quotes is one token whatever single quotes it
    holds, and the other way round. *)
Theorem tokenize_empty_and_quotes :
  (forall s, tokenize s = Returns []
             <-> Forall (fun c => is_space c = true) s) /\
  (forall q t,
     q = dquote \/ q = squote ->
     ~ In q t ->
     exists run rest,
       t = run ++ rest /\
       Forall (fun d => is_space d = false) run /\
       run_ends rest /\
       tokenize (q :: t)
       = map_result (cons (Some (q :: run))) (tokenize rest)) /\
  (forall q body rest,
     q = dquote \/ q = squote ->
     ~ In q body ->
     tokenize (q :: body ++ q :: rest)
     = map_result (cons (Some body)) (tokenize rest)).
Proof.
  split; [exact tokenize_nil_iff|].
  split; [exact tokenize_open_quote|exact tokenize_quoted].
Qed.

Lemma tokenize_empty_and_quotes_witness :
  tokenize mixed_quotes_line
  = Returns [Some (js "it's");
             Some (js "say " ++ dquote :: js "hi" ++ [dquote])].
Proof.
  destruct tokenize_empty_and_quotes as (Hnil & _ & Hq).
  unfold mixed_quotes_line.
  rewrite (Hq dquote (js "it's") _ (or_introl eq_refl));
    [|intros H; vm_compute in H; intuition discriminate].
  rewrite (tokenize_space space _ eq_refl).
  rewrite (Hq squote _ [] (or_intror eq_refl));
    [|intros H; vm_compute in H; intuition discriminate].
  now rewrite (proj2 (Hnil []) (Forall_nil _)).
Defined.

(** ** What printing and rendering leave alone *)

Lemma print_state (t : jsstring) (c : cls) (w : World) :
  state (print t c w) = state w.
Proof. unfold print. now destruct (els_screen (els w)). Qed.

Lemma print_storage (t : jsstring) (c : cls) (w : World) :
  storage (print t c w) = storage w.
Proof. unfold print. now destruct (els_screen (els w)). Qed.

Lemma print_screen (t : jsstring) (c : cls) (w : World) :
  els_screen (els (print t c w))
  = option_map (fun ls => ls ++ [(c, t)]) (els_screen (els w)).
Proof.
  unfold print. destruct (els_screen (els w)) eqn:E; simpl; [reflexivity|].
  now rewrite E.
Qed.

Lemma print_lists (t : jsstring) (c : cls) (w : World) :
  els_list (els (print t c w)) = els_list (els w) /\
  els_mottosList (els (print t c w)) = els_mottosList (els w) /\
  els_failsRoot (els (print t c w)) = els_failsRoot (els w).
Proof. unfold print. now destruct (els_screen (els w)). Qed.

Lemma renderHomeLists_screen_same (w : World) :
  els_screen (els (renderHomeLists w)) = els_screen (els w).
Proof. reflexivity. Qed.

Lemma fold_print_state {A} (g : A -> jsstring) (c : cls) (xs : list A)
    (w : World) :
  state (fold_left (fun w' x => print (g x) c w') xs w) = state w.
Proof.
  revert w. induction xs as [|x xs' IH]; intros w; simpl; [reflexivity|].
  now rewrite IH, print_state.
Qed.

Lemma fold_print_storage {A} (g : A -> jsstring) (c : cls) (xs : list A)
    (w : World) :
  storage (fold_left (fun w' x => print (g x) c w') xs w) = storage w.
Proof.
  revert w. induction xs as [|x xs' IH]; intros w; simpl; [reflexivity|].
  now rewrite IH, print_storage.
Qed.

Lemma renderHomeLists_state (w : World) :
  state (renderHomeLists w) = state w.
Proof. reflexivity. Qed.

Lemma renderHomeLists_storage (w : World) :
  storage (renderHomeLists w) = storage w.
Proof. reflexivity. Qed.

(** [s && s.trim()] is the trimmed string, also for the empty string. *)
Lemma and_str_trim (s : jsstring) : and_str s (trim s) = trim s.
Proof. now destruct s. Qed.

(** ** push with nothing staged *)

(** C4.  When [pending] is empty, [push] changes neither [entries] nor
    [pending] nor [mottos] nor the stored record, and all it does is print
    the warning line nothing to push. *)
Theorem pushCmd_empty_pending (env : Env) (w : World) :
  pending (state w) = [] ->
  pushCmd env w = print (js "nothing to push") ClsWarn w /\
  state (pushCmd env w) = state w /\
  storage (pushCmd env w) = storage w /\
  els_screen (els (pushCmd env w))
  = option_map (fun ls => ls ++ [(ClsWarn, js "nothing to push")])
      (els_screen (els w)) /\
  els_list (els (pushCmd env w)) = els_list (els w) /\
  els_mottosList (els (pushCmd env w)) = els_mottosList (els w) /\
  els_failsRoot (els (pushCmd env w)) = els_failsRoot (els w).
Proof.
  intros H. unfold pushCmd. rewrite H.
  split; [reflexivity|].
  split; [apply print_state|].
  split; [apply print_storage|].
  split; [apply print_screen|].
  apply print_lists.
Qed.

Lemma pushCmd_empty_pending_witness :
  pending (state seeded_world) = [] /\
  state (pushCmd sample_env seeded_world) = state seeded_world /\
  storage (pushCmd sample_env seeded_world) = storage seeded_world.
Proof.
  split; [reflexivity|].
  destruct (pushCmd_empty_pending sample_env seeded_world eq_refl)
    as (_ & H1 & H2 & _).
  split; assumption.
Defined.

(** ** motto *)



(** The command line motto with the quoted text Ship it reaches
    [mottoCmd] with the text Ship it. *)
Lemma handleCommand_motto_ship_it (h : Host) (env : Env) (w : World) :
  handleCommand h env (js "motto " ++ quoted "Ship it") w
  = Returns (Done (mottoCmd (js "Ship it") w)).
Proof.
  unfold handleCommand.
  assert (H : tokenize (js "motto " ++ quoted "Ship it")
              = Returns [Some (js "motto"); Some (js "Ship it")])
    by (vm_compute; reflexivity).
  rewrite H. reflexivity.
Qed.

(** ** The delete button *)

Lemma jsstring_eqb_eq (a b : jsstring) : jsstring_eqb a b = true <-> a = b.
Proof.
  unfold jsstring_eqb. destruct (list_eq_dec N.eq_dec a b); split;
    congruence.
Qed.

Lemma findIndex_some {A} (f : A -> bool) (xs : list A) (i : nat) :
  findIndex f xs = Some i ->
  exists l1 x l2,
    xs = l1 ++ x :: l2 /\ length l1 = i /\ f x = true /\
    (forall y, In y l1 -> f y = false).
Proof.
  revert i. induction xs as [|a xs' IH]; intros i; simpl; [discriminate|].
  destruct (f a) eqn:Ha.
  - intros [= <-]. exists [], a, xs'. repeat split; try assumption.
    intros y [].
  - destruct (findIndex f xs') as [j|]; [|discriminate].
    intros [= <-]. destruct (IH j eq_refl) as (l1 & x & l2 & -> & Hl & Hx & Hy).
    exists (a :: l1), x, l2. repeat split; simpl; try congruence.
    intros y [<-|Hin]; [assumption|now apply Hy].
Qed.

Lemma findIndex_none {A} (f : A -> bool) (xs : list A) :
  findIndex f xs = None -> forall x, In x xs -> f x = false.
Proof.
  induction xs as [|a xs' IH]; simpl; [intros _ x []|].
  destruct (f a) eqn:Ha; [discriminate|].
  destruct (findIndex f xs'); [discriminate|].
  intros _ x [<-|Hin]; [assumption|now apply IH].
Qed.

Lemma splice1_at {A} (l1 l2 : list A) (x : A) :
  splice1 (length l1) (l1 ++ x :: l2) = l1 ++ l2.
Proof.
  unfold splice1. induction l1 as [|a l1' IH]; [reflexivity|].
  change (a :: (firstn (length l1') (l1' ++ x :: l2)
                ++ skipn (S (length l1')) (l1' ++ x :: l2))
          = a :: (l1' ++ l2)).
  now f_equal.
Qed.

Lemma unique_id_same (l1 l2 : list Entry) (x e : Entry) :
  NoDup (map entry_id (l1 ++ x :: l2)) ->
  In e (l1 ++ x :: l2) ->
  entry_id x = entry_id e ->
  x = e.
Proof.
  intros Hnd Hin Hid. rewrite map_app in Hnd. simpl in Hnd.
  apply NoDup_remove_2 in Hnd.
  apply in_app_or in Hin. destruct Hin as [Hin|[Heq|Hin]].
  - exfalso. apply Hnd. apply in_or_app. left. rewrite Hid.
    now apply in_map.
  - assumption.
  - exfalso. apply Hnd. apply in_or_app. right. rewrite Hid.
    now apply in_map.
Qed.

(** C7.  For an entry [e] of [entries], the delete action for the id of
    [e] removes the first entry with that id, which is [e] itself when
    the ids are unique: [entries] gets shorter by exactly one, all other
    entries stay as they are and in their order, [pending] and [mottos]
    are unchanged, and the new state is stored: the stored record is the
    one [saveState] writes for it, and [loadState] reads the new state
    back from it.  On the fail-log page,
    which has the fails-root element, the action completes and the rows
    are rendered again from the new entries. *)
Theorem deleteClick_spec (w : World) (e : Entry) :
  In e (entries (state w)) ->
  exists l1 x l2,
    entries (state w) = l1 ++ x :: l2 /\
    entry_id x = entry_id e /\
    (forall y, In y l1 -> entry_id y <> entry_id e) /\
    (NoDup (map entry_id (entries (state w))) -> x = e) /\
    entries (state (world_of (deleteClick (entry_id e) w))) = l1 ++ l2 /\
    S (length (entries (state (world_of (deleteClick (entry_id e) w)))))
    = length (entries (state w)) /\
    pending (state (world_of (deleteClick (entry_id e) w)))
    = pending (state w) /\
    mottos (state (world_of (deleteClick (entry_id e) w)))
    = mottos (state w) /\
    storage (world_of (deleteClick (entry_id e) w))
    = saveState (state_json (state (world_of (deleteClick (entry_id e) w))))
    /\
    loadState (storage (world_of (deleteClick (entry_id e) w)))
    = state_json (state (world_of (deleteClick (entry_id e) w))) /\
    (els_failsRoot (els w) <> None ->
     exists w',
       deleteClick (entry_id e) w = Done w' /\
       els_failsRoot (els w') = Some (map failRowHtml (rev (l1 ++ l2)))).
Proof.
  intros Hin. unfold deleteClick.
  destruct (findIndex (fun x => jsstring_eqb (entry_id x) (entry_id e))
              (entries (state w))) as [idx|] eqn:Hf.
  - destruct (findIndex_some _ _ _ Hf) as (l1 & x & l2 & Hent & Hlen & Hx & Hl1).
    apply jsstring_eqb_eq in Hx.
    exists l1, x, l2.
    split; [assumption|]. split; [assumption|].
    split.
    { intros y Hy Heq. specialize (Hl1 y Hy).
      apply jsstring_eqb_eq in Heq. congruence. }
    split.
    { intros Hnd. rewrite Hent in Hnd, Hin.
      now apply (unique_id_same l1 l2 x e). }
    assert (Hsp : splice1 idx (entries (state w)) = l1 ++ l2).
    { rewrite Hent, <- Hlen. apply splice1_at. }
    unfold renderFailsPage, save, set_state. simpl.
    destruct (els_failsRoot (els w)) as [rows|] eqn:Hroot; simpl;
      rewrite Hsp.
    + repeat split; try reflexivity.
      * rewrite Hent, !length_app. simpl. lia.
      * intros _. eexists. split; reflexivity.
    + repeat split; try reflexivity.
      * rewrite Hent, !length_app. simpl. lia.
      * intros H. now contradiction H.
  - exfalso. pose proof (findIndex_none _ _ Hf e Hin) as H. simpl in H.
    assert (Ht : jsstring_eqb (entry_id e) (entry_id e) = true)
      by now apply jsstring_eqb_eq.
    congruence.
Qed.

Lemma deleteClick_spec_witness :
  exists l1 x l2,
    entries (state fails_page_world) = l1 ++ x :: l2 /\
    entries (state (world_of (deleteClick (entry_id first_seed)
                                fails_page_world)))
    = l1 ++ l2.
Proof.
  destruct (deleteClick_spec fails_page_world first_seed)
    as (l1 & x & l2 & H1 & _ & _ & _ & H2 & _).
  { simpl. now left. }
  exists l1, x, l2. split; assumption.
Defined.

(** ** Escaping *)

Lemma escapeHtml_cons (c : N) (s : jsstring) :
  escapeHtml (c :: s) =
  (if is_special c
   then match lookup_map c escape_map with
        | Some v => v
        | None => js "undefined"
        end
   else [c]) ++ escapeHtml s.
Proof. reflexivity. Qed.

Lemma is_special_cases (c : N) :
  is_special c = true ->
  c = 38 \/ c = 60 \/ c = 62 \/ c = dquote \/ c = squote.
Proof.
  unfold is_special. simpl. rewrite !orb_true_iff, !N.eqb_eq.
  intuition discriminate.
Qed.

Lemma not_special (c : N) :
  is_special c = false -> c <> 38 /\ is_markup c = false.
Proof.
  unfold is_special, is_markup. simpl. rewrite !orb_false_iff, !N.eqb_neq.
  intuition discriminate.
Qed.

Lemma decode_entities_other (c : N) (s : jsstring) :
  c <> 38 -> decode_entities (c :: s) = c :: decode_entities s.
Proof.
  intros H. destruct c as [|p]; [reflexivity|].
  do 6 (try (destruct p as [p|p|]; try reflexivity)).
  congruence.
Qed.

Lemma escapeHtml_no_markup (s : jsstring) (c : N) :
  In c (escapeHtml s) -> is_markup c = false.
Proof.
  induction s as [|d s' IH]; [intros []|].
  rewrite escapeHtml_cons. intros H. apply in_app_or in H.
  destruct H as [H|H]; [|now apply IH].
  destruct (is_special d) eqn:Hd.
  - destruct (is_special_cases d Hd) as [-> | [-> | [-> | [-> | ->]]]];
      vm_compute in H;
      repeat (destruct H as [<-|H]; [reflexivity|]); contradiction.
  - destruct H as [<-|[]]. now apply not_special.
Qed.

Lemma decode_escapeHtml (s : jsstring) : decode_entities (escapeHtml s) = s.
Proof.
  induction s as [|d s' IH]; [reflexivity|].
  rewrite escapeHtml_cons.
  destruct (is_special d) eqn:Hd.
  - destruct (is_special_cases d Hd) as [-> | [-> | [-> | [-> | ->]]]];
      cbn -[decode_entities escapeHtml];
      change (decode_entities (?a :: ?b :: ?c)) with
        (decode_entities (a :: b :: c));
      simpl decode_entities; now rewrite IH.
  - simpl app. rewrite decode_entities_other; [now rewrite IH|].
    now apply not_special.
Qed.

Lemma filter_markup_escapeHtml (s : jsstring) :
  filter is_markup (escapeHtml s) = [].
Proof.
  assert (H : forall l, (forall c, In c l -> is_markup c = false) ->
                        filter is_markup l = []).
  { induction l as [|a l' IH]; intros Hl; [reflexivity|]. simpl.
    rewrite (Hl a (or_introl eq_refl)). apply IH.
    intros c Hc. apply Hl. now right. }
  apply H. apply escapeHtml_no_markup.
Qed.

Lemma failRowHtml_markup (e : Entry) :
  filter is_markup (failRowHtml e)
  = filter is_markup
      (failRowHtml (mkEntry (entry_id e) (entry_date e) [] [])).
Proof.
  unfold failRowHtml. rewrite !filter_app, !filter_markup_escapeHtml.
  reflexivity.
Qed.

Lemma homeItemHtml_markup (e : Entry) :
  filter is_markup (homeItemHtml e)
  = filter is_markup
      (homeItemHtml (mkEntry (entry_id e) (entry_date e) [] [])).
Proof.
  unfold homeItemHtml. rewrite !filter_app, !filter_markup_escapeHtml.
  reflexivity.
Qed.

Lemma text_before_tag_app (a b : jsstring) :
  (forall c, In c a -> c <> 60) ->
  (exists b', b = 60 :: b') ->
  text_before_tag (a ++ b) = a.
Proof.
  intros Ha [b' ->]. induction a as [|x a' IH]; [reflexivity|]. simpl.
  destruct (N.eqb_spec x 60) as [E|_].
  - exfalso. now apply (Ha x (or_introl eq_refl)).
  - f_equal. apply IH. intros c Hc. apply Ha. now right.
Qed.

Lemma after_mark_skip (c0 : N) (m a s : jsstring) :
  (forall c, In c a -> c <> c0) ->
  after_mark (c0 :: m) (a ++ s) = after_mark (c0 :: m) s.
Proof.
  intros Ha. induction a as [|x a' IH]; [reflexivity|].
  change ((x :: a') ++ s) with (x :: (a' ++ s)).
  cbn [after_mark starts_with].
  destruct (N.eqb_spec c0 x) as [E|_].
  - exfalso. now apply (Ha x (or_introl eq_refl)).
  - cbn [andb]. apply IH. intros c Hc. apply Ha. now right.
Qed.

Lemma escapeHtml_no_tag (s : jsstring) (c : N) :
  In c (escapeHtml s) -> c <> 60.
Proof.
  intros H E. apply escapeHtml_no_markup in H. subst c. discriminate.
Qed.

Lemma failRowHtml_parts (e : Entry) :
  failRowHtml e
  = fail_row_head ++ escapeHtml (entry_message e) ++ row_between
    ++ escapeHtml (entry_lesson e)
    ++ fail_row_tail (entry_id e) (entry_date e).
Proof. reflexivity. Qed.

Lemma homeItemHtml_parts (e : Entry) :
  homeItemHtml e
  = home_row_head ++ escapeHtml (entry_message e) ++ row_between
    ++ escapeHtml (entry_lesson e)
    ++ home_row_tail (entry_id e) (entry_date e).
Proof. reflexivity. Qed.

(** In markup made of a head that ends with the mark of the message, the
    escaped message, the text between, the escaped lesson and a tail that
    starts with a tag, the text shown at the message is the message and
    the text shown at the lesson is the lesson. *)
Lemma shown_in_row (head tail msg lesson : jsstring) :
  (forall X, after_mark message_mark (head ++ X) = X) ->
  (forall Y, after_mark lesson_mark (head ++ Y) = after_mark lesson_mark Y) ->
  (exists t, tail = 60 :: t) ->
  shown_after message_mark
    (head ++ escapeHtml msg ++ row_between ++ escapeHtml lesson ++ tail)
  = msg /\
  shown_after lesson_mark
    (head ++ escapeHtml msg ++ row_between ++ escapeHtml lesson ++ tail)
  = lesson.
Proof.
  intros Hm Hl Ht. unfold shown_after. split.
  - rewrite Hm, text_before_tag_app.
    + apply decode_escapeHtml.
    + apply escapeHtml_no_tag.
    + eexists. reflexivity.
  - rewrite Hl. unfold lesson_mark at 1.
    change (js "<br/>" ++ arrow ++ js " ") with (60 :: js "br/>" ++ arrow ++ js " ").
    rewrite after_mark_skip; [|apply escapeHtml_no_tag].
    change (after_mark (60 :: js "br/>" ++ arrow ++ js " ")
              (row_between ++ escapeHtml lesson ++ tail))
      with (escapeHtml lesson ++ tail).
    rewrite text_before_tag_app; [apply decode_escapeHtml
                                 |apply escapeHtml_no_tag|exact Ht].
Qed.

Lemma failRowHtml_shown (e : Entry) :
  shown_after message_mark (failRowHtml e) = entry_message e /\
  shown_after lesson_mark (failRowHtml e) = entry_lesson e.
Proof.
  rewrite failRowHtml_parts. apply shown_in_row.
  - intros X. reflexivity.
  - intros Y. reflexivity.
  - eexists. reflexivity.
Qed.

Lemma homeItemHtml_shown (e : Entry) :
  shown_after message_mark (homeItemHtml e) = entry_message e /\
  shown_after lesson_mark (homeItemHtml e) = entry_lesson e.
Proof.
  rewrite homeItemHtml_parts. apply shown_in_row.
  - intros X. reflexivity.
  - intros Y. reflexivity.
  - eexists. reflexivity.
Qed.

(** C9.  [escapeHtml] replaces every ampersand, angle bracket and quote
    by its character reference and keeps every other character, so its
    result holds no angle bracket and no quote, and read as text it is the
    string that went in.  The message and the lesson of an entry go into
    the markup of a row, on the fail-log page and in the recent list,
    through [escapeHtml] only: the row is the template with the escaped
    message and the escaped lesson in their places, its angle brackets
    and quotes are those of the template, the id and the date, and the
    text a browser shows at the place of the message is the message
    itself, and at the place of the lesson the lesson itself, whatever
    characters they hold.  The text script in angle brackets comes out
    with the references for the two brackets. *)
Theorem escapeHtml_spec :
  (forall s,
     escapeHtml (38 :: s) = js "&amp;" ++ escapeHtml s /\
     escapeHtml (60 :: s) = js "&lt;" ++ escapeHtml s /\
     escapeHtml (62 :: s) = js "&gt;" ++ escapeHtml s /\
     escapeHtml (dquote :: s) = js "&quot;" ++ escapeHtml s /\
     escapeHtml (squote :: s) = js "&#39;" ++ escapeHtml s) /\
  (forall c s, is_special c = false ->
     escapeHtml (c :: s) = c :: escapeHtml s) /\
  (forall s c, In c (escapeHtml s) ->
     c <> 60 /\ c <> 62 /\ c <> dquote /\ c <> squote) /\
  (forall s, decode_entities (escapeHtml s) = s) /\
  (forall e,
     filter is_markup (failRowHtml e)
     = filter is_markup
         (failRowHtml (mkEntry (entry_id e) (entry_date e) [] []))) /\
  (forall e,
     filter is_markup (homeItemHtml e)
     = filter is_markup
         (homeItemHtml (mkEntry (entry_id e) (entry_date e) [] []))) /\
  (forall e,
     failRowHtml e
     = fail_row_head ++ escapeHtml (entry_message e) ++ row_between
       ++ escapeHtml (entry_lesson e)
       ++ fail_row_tail (entry_id e) (entry_date e)) /\
  (forall e,
     homeItemHtml e
     = home_row_head ++ escapeHtml (entry_message e) ++ row_between
       ++ escapeHtml (entry_lesson e)
       ++ home_row_tail (entry_id e) (entry_date e)) /\
  (forall e,
     shown_after message_mark (failRowHtml e) = entry_message e /\
     shown_after lesson_mark (failRowHtml e) = entry_lesson e) /\
  (forall e,
     shown_after message_mark (homeItemHtml e) = entry_message e /\
     shown_after lesson_mark (homeItemHtml e) = entry_lesson e) /\
  escapeHtml (js "<script>") = js "&lt;script&gt;".
Proof.
  split; [intros s; repeat split; reflexivity|].
  split; [intros c s H; rewrite escapeHtml_cons; now rewrite H|].
  split.
  { intros s c H. apply escapeHtml_no_markup in H. unfold is_markup in H.
    rewrite !orb_false_iff, !N.eqb_neq in H. intuition. }
  split; [exact decode_escapeHtml|].
  split; [exact failRowHtml_markup|].
  split; [exact homeItemHtml_markup|].
  split; [exact failRowHtml_parts|].
  split; [exact homeItemHtml_parts|].
  split; [exact failRowHtml_shown|].
  split; [exact homeItemHtml_shown|].
  reflexivity.
Qed.

(** The row of an entry whose message is a script element: the markup
    holds the references, and the text shown is the message as typed. *)
Lemma script_entry_row :
  shown_after message_mark (failRowHtml script_entry)
  = js "<script>alert(1)</script>" /\
  shown_after lesson_mark (failRowHtml script_entry)
  = js "Tom & Jerry's " ++ quoted "plan" /\
  text_before_tag (after_mark message_mark (failRowHtml script_entry))
  = js "&lt;script&gt;alert(1)&lt;/script&gt;".
Proof.
  destruct (failRowHtml_shown script_entry) as [H1 H2].
  split; [exact H1|]. split; [exact H2|]. vm_compute. reflexivity.
Qed.

Lemma escapeHtml_spec_witness :
  In 115 (escapeHtml (js "<script>")) /\
  (115 <> 60 /\ 115 <> 62 /\ 115 <> dquote /\ 115 <> squote).
Proof.
  assert (H : In 115 (escapeHtml (js "<script>")))
    by (vm_compute; tauto).
  split; [exact H|].
  exact (proj1 (proj2 (proj2 escapeHtml_spec)) _ _ H).
Defined.

(** ** Loading the state *)

Lemma loadState_absent (it : item) :
  it = NoItem \/ it = BadText \/
  (exists v, it = JsonText v /\ truthy v = false) ->
  loadState it = JNull.
Proof.
  intros [-> | [-> | (v & -> & Hv)]]; try reflexivity.
  unfold loadState, js_or. simpl. now rewrite Hv.
Qed.

(** C5, as stated, fails: a stored record that parses as JSON but is not a
    state, here an object with the one key foo, is not treated as absent.
    [loadState] returns it, [state] becomes that object instead of the
    seeded default, and the stored record stays as it was. *)
Lemma loadState_foreign_counterexample :
  loadState foreign_record = JObj [(js "foo", JNum 1)] /\
  loadState foreign_record <> loadState NoItem /\
  fst (boot sample_env foreign_record)
  <> state_json (defaultState sample_env) /\
  snd (boot sample_env foreign_record) = foreign_record.
Proof.
  split; [reflexivity|].
  split; [discriminate|].
  split; [|reflexivity].
  simpl. discriminate.
Qed.

(** C5, amended.  [loadState] never raises: the error of [JSON.parse] is
    caught.  A missing record, a record that does not parse, and a record
    that parses to a falsy value (null, false, zero, the empty string) are
    all treated as absent: [loadState] returns null, the seeded default
    becomes the state and is stored at once, and every later load returns
    the seeded state that was stored.  Any other record that parses is
    returned as it is, whatever its shape, becomes the state, and the
    stored record is left as it was. *)
Theorem boot_spec (env : Env) (it : item) :
  (it = NoItem \/ it = BadText \/
   (exists v, it = JsonText v /\ truthy v = false) ->
   loadState it = JNull /\
   boot env it = (state_json (defaultState env),
                  saveState (state_json (defaultState env))) /\
   loadState (snd (boot env it)) = state_json (defaultState env) /\
   (forall env', boot env' (snd (boot env it))
                 = (state_json (defaultState env), snd (boot env it)))) /\
  (forall v, it = JsonText v -> truthy v = true ->
   loadState it = v /\ boot env it = (v, it)).
Proof.
  split.
  - intros H. pose proof (loadState_absent it H) as Hl.
    assert (Hb : boot env it = (state_json (defaultState env),
                                saveState (state_json (defaultState env)))).
    { unfold boot. rewrite Hl. reflexivity. }
    split; [assumption|]. split; [assumption|].
    rewrite Hb. split; reflexivity.
  - intros v -> Hv.
    assert (Hl : loadState (JsonText v) = v).
    { unfold loadState, js_or. simpl. now rewrite Hv. }
    split; [assumption|].
    unfold boot. rewrite Hl. unfold js_or. now rewrite Hv.
Qed.

Lemma boot_spec_witness :
  loadState BadText = JNull /\
  boot sample_env BadText
  = (state_json (defaultState sample_env),
     saveState (state_json (defaultState sample_env))).
Proof.
  destruct (proj1 (boot_spec sample_env BadText) (or_intror (or_introl eq_refl)))
    as (H1 & H2 & _).
  split; assumption.
Defined.

(** ** Ids *)

Lemma shortId_digits (ds : draw) : shortId ds = map digit36 (firstn 7 ds).
Proof.
  unfold shortId, slice, toString36.
  destruct ds as [|d ds']; [reflexivity|].
  change (skipn 2 (js "0." ++ map digit36 (d :: ds')))
    with (map digit36 (d :: ds')).
  change (9 - 2)%nat with 7%nat. apply firstn_map.
Qed.

Lemma digit36_base36 (d : N) : d < 36 -> is_base36 (digit36 d) = true.
Proof.
  intros H. unfold digit36, is_base36.
  destruct (N.ltb_spec d 10).
  - apply orb_true_iff. left. apply andb_true_iff.
    split; apply N.leb_le; lia.
  - apply orb_true_iff. right. apply andb_true_iff.
    split; apply N.leb_le; lia.
Qed.

Lemma new_entries_ids (env : Env) (i : nat) (ps : list PendingItem) :
  map entry_id (new_entries env i ps)
  = map (fun j => shortId (random env j)) (seq i (length ps)).
Proof.
  revert i. induction ps as [|p ps' IH]; intros i; simpl; [reflexivity|].
  now rewrite IH.
Qed.

(** What [push] does to the state when something is staged. *)
Lemma pushCmd_staged (env : Env) (w : World) :
  pending (state w) <> [] ->
  state (pushCmd env w)
  = mkState [] (entries (state w) ++ new_entries env 0 (pending (state w)))
      (mottos (state w)) /\
  storage (pushCmd env w) = saveState (state_json (state (pushCmd env w))).
Proof.
  intros H. unfold pushCmd.
  destruct (pending (state w)) as [|p ps] eqn:E; [congruence|].
  unfold party.
  rewrite renderHomeLists_state, renderHomeLists_storage, print_state,
    print_storage.
  split; reflexivity.
Qed.

Lemma pushCmd_entries (env : Env) (w : World) :
  entries (state (pushCmd env w))
  = entries (state w) ++ new_entries env 0 (pending (state w)).
Proof.
  destruct (pending (state w)) as [|p ps] eqn:E.
  - unfold pushCmd. rewrite E, print_state. simpl. now rewrite app_nil_r.
  - assert (H : pending (state w) <> []) by congruence.
    rewrite (proj1 (pushCmd_staged env w H)), E. reflexivity.
Qed.

(** C6, as stated, fails.  When [Math.random()] returns one half, which
    prints as 0, a dot and the digit i in base 36, the id is the one
    character i, not seven characters.  And when two draws print the same
    digits, pushing two staged items appends two entries with the same
    id. *)
Lemma shortId_counterexample :
  shortId [18] = js "i" /\
  length (shortId [18]) <> 7%nat /\
  map entry_id (entries (state (pushCmd repeat_env two_pending_world)))
  = [js "1234567"; js "1234567"] /\
  ~ NoDup (map entry_id
             (entries (state (pushCmd repeat_env two_pending_world)))).
Proof.
  split; [reflexivity|].
  split; [vm_compute; discriminate|].
  split; [reflexivity|].
  intros H. inversion H as [|x l Hnotin _]. apply Hnotin. now left.
Qed.

(** C6, amended.  An id is made of the first seven base-36 digits the
    drawn number prints: at most seven characters, each from 0 to 9 or a
    to z, and exactly seven when the number prints at least seven digits.
    [push] gives the entries it appends the ids of its draws, one draw for
    each staged item, and checks nothing: the ids of [entries] are unique
    afterwards whenever the ids before together with the ids drawn are
    without repetition. *)
Theorem shortId_spec :
  (forall ds, shortId ds = map digit36 (firstn 7 ds)) /\
  (forall ds, length (shortId ds) = Nat.min 7 (length ds)) /\
  (forall ds, Forall (fun d => d < 36) ds ->
              Forall (fun c => is_base36 c = true) (shortId ds)) /\
  (forall env w,
     map entry_id (entries (state (pushCmd env w)))
     = map entry_id (entries (state w))
       ++ map (fun i => shortId (random env i))
            (seq 0 (length (pending (state w))))) /\
  (forall env w,
     NoDup (map entry_id (entries (state w))
            ++ map (fun i => shortId (random env i))
                 (seq 0 (length (pending (state w))))) ->
     NoDup (map entry_id (entries (state (pushCmd env w))))).
Proof.
  assert (Hids : forall env w,
     map entry_id (entries (state (pushCmd env w)))
     = map entry_id (entries (state w))
       ++ map (fun i => shortId (random env i))
            (seq 0 (length (pending (state w))))).
  { intros env w. now rewrite pushCmd_entries, map_app, new_entries_ids. }
  split; [exact shortId_digits|].
  split.
  { intros ds. rewrite shortId_digits, length_map. apply length_firstn. }
  split.
  { intros ds Hds. rewrite shortId_digits. apply Forall_map.
    apply Forall_forall. intros d Hd. apply digit36_base36.
    rewrite Forall_forall in Hds. apply Hds.
    apply (In_nth_error) in Hd. destruct Hd as [n Hn].
    apply nth_error_In with (n := n).
    rewrite nth_error_firstn in Hn.
    destruct (n <? 7)%nat; [assumption|discriminate]. }
  split; [exact Hids|].
  intros env w H. now rewrite Hids.
Qed.

Lemma shortId_spec_witness :
  NoDup (map entry_id
           (entries (state (pushCmd sample_env two_pending_world)))).
Proof.
  apply (proj2 (proj2 (proj2 (proj2 shortId_spec))) sample_env
           two_pending_world).
  vm_compute. repeat constructor; simpl; intuition discriminate.
Defined.

(** ** commit *)

(** Once the message is there and [suggestLesson] is bound, [commit]
    stages one item, stores the state and prints two lines. *)
Lemma commitCmd_done (h : Host) (f : jsstring -> jsstring)
    (message msg : jsstring) (w : World) :
  suggestLesson h = Some f ->
  (if truthy_str (and_str message (trim message))
   then Some (trim message) else randomFailure h) = Some msg ->
  exists w',
    commitCmd h message w = Done w' /\
    state w'
    = mkState (pending (state w) ++ [mkPending msg (f msg)])
        (entries (state w)) (mottos (state w)) /\
    storage w' = saveState (state_json (state w')).
Proof.
  intros Hf Hm. unfold commitCmd. rewrite Hf, Hm.
  eexists. split; [reflexivity|].
  rewrite (fold_print_state
             (fun p => js "changes staged:" ++ nl ++ js "  fail:   "
                       ++ pending_message p ++ nl ++ js "  lesson: "
                       ++ pending_lesson p)),
          (fold_print_storage
             (fun p => js "changes staged:" ++ nl ++ js "  fail:   "
                       ++ pending_message p ++ nl ++ js "  lesson: "
                       ++ pending_lesson p)).
  rewrite print_state, print_storage.
  split; reflexivity.
Qed.

(** On a page that binds [suggestLesson] and [randomFailure], [commit]
    stages one item with the trimmed text, or with the message
    [randomFailure] returns when the text is empty or white space, and the
    lesson [suggestLesson] gives for that message; it stores the state and
    leaves [entries] and [mottos] alone. *)
Lemma commitCmd_with_helpers (h : Host) (f : jsstring -> jsstring)
    (canned message : jsstring) (w : World) :
  suggestLesson h = Some f ->
  randomFailure h = Some canned ->
  exists w',
    commitCmd h message w = Done w' /\
    pending (state w')
    = pending (state w)
      ++ [mkPending (staged_message canned message)
            (f (staged_message canned message))] /\
    entries (state w') = entries (state w) /\
    mottos (state w') = mottos (state w) /\
    storage w' = saveState (state_json (state w')).
Proof.
  intros Hf Hr.
  destruct (commitCmd_done h f message (staged_message canned message) w Hf)
    as (w' & Hd & Hs & Hst).
  { rewrite and_str_trim, Hr. unfold staged_message.
    now destruct (trim message). }
  exists w'. split; [exact Hd|].
  split; [now rewrite Hs|]. split; [now rewrite Hs|].
  split; [now rewrite Hs|exact Hst].
Qed.

Lemma commit_with_sample_host :
  exists w',
    commitCmd sample_host (js "  I broke prod ") empty_world = Done w' /\
    pending (state w')
    = [mkPending (js "I broke prod") (js "lesson for I broke prod")].
Proof.
  destruct (commitCmd_with_helpers sample_host _ (js "It broke")
              (js "  I broke prod ") empty_world eq_refl eq_refl)
    as (w' & Hd & Hp & _).
  exists w'. split; [exact Hd|]. rewrite Hp. reflexivity.
Qed.

(** C1, on the script as it is.  [commitCmd] calls [suggestLesson], and
    for an empty or white-space argument [randomFailure] before it; the
    script declares neither.  On a page that loads only this script every
    call of [commit] ends in a ReferenceError before anything is staged:
    [pending], [entries], [mottos], the stored record and the screen are
    as they were. *)
Theorem commitCmd_script_only (message : jsstring) (w : World) :
  commitCmd script_only message w
  = Throws (ReferenceError (match trim message with
                            | [] => js "randomFailure"
                            | _ => js "suggestLesson"
                            end)) w.
Proof.
  unfold commitCmd, script_only. rewrite and_str_trim. simpl.
  now destruct (trim message).
Qed.

Lemma commit_X_throws (w : World) :
  commitCmd script_only (js "X") w
  = Throws (ReferenceError (js "suggestLesson")) w.
Proof. reflexivity. Qed.

(** ** commit, then push *)

Lemma tokenize_commit_X :
  tokenize commit_X = Returns [Some (js "commit"); Some (js "X")].
Proof. vm_compute. reflexivity. Qed.

Lemma handleCommand_commit_X (h : Host) (env : Env) (w : World) :
  handleCommand h env commit_X w = Returns (commitCmd h (js "X") w).
Proof. unfold handleCommand. rewrite tokenize_commit_X. reflexivity. Qed.

Lemma handleCommand_push (h : Host) (env : Env) (w : World) :
  handleCommand h env (js "push") w = Returns (Done (pushCmd env w)).
Proof.
  unfold handleCommand.
  assert (H : tokenize (js "push") = Returns [Some (js "push")])
    by (vm_compute; reflexivity).
  rewrite H. reflexivity.
Qed.

(** On a page that binds [suggestLesson], commit X and then push, from a
    state with nothing staged and nothing logged, leave exactly one entry,
    with the message X, the id of the first draw and the date of the day,
    and nothing staged. *)
Lemma commit_push_with_helpers (h : Host) (f : jsstring -> jsstring)
    (env : Env) (w : World) :
  suggestLesson h = Some f ->
  pending (state w) = [] ->
  entries (state w) = [] ->
  exists w1,
    handleCommand h env commit_X w = Returns (Done w1) /\
    entries (state (pushCmd env w1))
    = [mkEntry (shortId (random env 0)) (localeDate env 0) (js "X")
         (f (js "X"))] /\
    pending (state (pushCmd env w1)) = [].
Proof.
  intros Hf Hp He. rewrite handleCommand_commit_X.
  destruct (commitCmd_done h f (js "X") (js "X") w Hf eq_refl)
    as (w1 & Hd & Hs & _).
  exists w1. split; [now rewrite Hd|].
  assert (Hne : pending (state w1) <> []).
  { rewrite Hs. simpl. now destruct (pending (state w)). }
  rewrite (proj1 (pushCmd_staged env w1 Hne)), Hs. simpl.
  rewrite Hp, He. split; reflexivity.
Qed.

(** C2, on the script as it is.  From a state with nothing staged and
    nothing logged, commit X ends in the ReferenceError for
    [suggestLesson] and stages nothing, so the push that follows finds
    nothing to push: it prints the warning, and [entries] is still empty,
    with no entry for X. *)
Theorem commit_push_script_only (env : Env) (w : World) :
  pending (state w) = [] ->
  entries (state w) = [] ->
  handleCommand script_only env commit_X w
  = Returns (Throws (ReferenceError (js "suggestLesson")) w) /\
  handleCommand script_only env (js "push") w
  = Returns (Done (print (js "nothing to push") ClsWarn w)) /\
  entries (state (pushCmd env w)) = [] /\
  pending (state (pushCmd env w)) = [].
Proof.
  intros Hp He.
  split; [now rewrite handleCommand_commit_X, commit_X_throws|].
  rewrite handleCommand_push. unfold pushCmd. rewrite Hp.
  rewrite print_state. repeat split; assumption.
Qed.

Lemma commit_push_script_only_witness :
  entries (state (pushCmd sample_env empty_world)) = [] /\
  pending (state (pushCmd sample_env empty_world)) = [].
Proof.
  destruct (commit_push_script_only sample_env empty_world eq_refl eq_refl)
    as (_ & _ & H1 & H2).
  split; assumption.
Defined.

(** * Further properties *)

(** ** Saving and loading *)

Lemma boot_absent (env : Env) (it : item) :
  truthy (loadState it) = false ->
  boot env it = (state_json (defaultState env),
                 saveState (state_json (defaultState env))).
Proof.
  intros H. unfold boot, js_or. now rewrite H.
Qed.

Lemma boot_present (env : Env) (it : item) :
  truthy (loadState it) = true -> boot env it = (loadState it, it).
Proof.
  intros H. unfold boot, js_or. now rewrite H.
Qed.

(** Loading is idempotent: whatever is stored, a second page load with no
    save in between ends with the same state and the same stored record as
    the first, also when the first load seeded the default and the second
    load draws other ids and dates for its own default. *)
Theorem boot_twice (env env' : Env) (it : item) :
  boot env' (snd (boot env it)) = boot env it.
Proof.
  destruct (truthy (loadState it)) eqn:H.
  - rewrite (boot_present env it H). simpl.
    now rewrite (boot_present env' it H).
  - rewrite (boot_absent env it H). reflexivity.
Qed.

(** ** What the handlers do to the state and the stored record *)

Lemma help_state (w : World) :
  state (help w) = state w /\ storage (help w) = storage w.
Proof.
  unfold help. split.
  - apply (fold_print_state
             (fun cd => padEnd 18 (fst cd) ++ js " " ++ snd cd)).
  - apply (fold_print_storage
             (fun cd => padEnd 18 (fst cd) ++ js " " ++ snd cd)).
Qed.

Lemma aboutCmd_state (w : World) :
  state (aboutCmd w) = state w /\ storage (aboutCmd w) = storage w.
Proof.
  unfold aboutCmd. rewrite !print_state, !print_storage. now split.
Qed.

Lemma logCmd_state (w : World) :
  state (logCmd w) = state w /\ storage (logCmd w) = storage w.
Proof.
  unfold logCmd. destruct (entries (state w)) as [|e l].
  - rewrite print_state, print_storage. now split.
  - split.
    + apply (fold_print_state
               (fun e => js "commit " ++ entry_id e ++ js " ("
                         ++ entry_date e ++ js ")" ++ nl ++ js "  fail:   "
                         ++ entry_message e ++ nl ++ js "  lesson: "
                         ++ entry_lesson e)).
    + apply (fold_print_storage
               (fun e => js "commit " ++ entry_id e ++ js " ("
                         ++ entry_date e ++ js ")" ++ nl ++ js "  fail:   "
                         ++ entry_message e ++ nl ++ js "  lesson: "
                         ++ entry_lesson e)).
Qed.

Lemma statsCmd_state (env : Env) (w : World) :
  state (statsCmd env w) = state w /\ storage (statsCmd env w) = storage w.
Proof.
  unfold statsCmd. rewrite print_state, print_storage. now split.
Qed.

Lemma clearScreen_state (w : World) :
  state (clearScreen w) = state w /\ storage (clearScreen w) = storage w.
Proof.
  unfold clearScreen. destruct (els_screen (els w)); now split.
Qed.

(** [commit] either throws for a name that is not bound, before it has
    changed anything, or completes with the state stored. *)
Lemma commitCmd_outcome (h : Host) (message : jsstring) (w : World) :
  (exists name, commitCmd h message w = Throws (ReferenceError name) w) \/
  (exists w', commitCmd h message w = Done w' /\ in_sync w').
Proof.
  destruct (suggestLesson h) as [f|] eqn:Hf.
  - destruct (if truthy_str (and_str message (trim message))
              then Some (trim message) else randomFailure h)
      as [msg|] eqn:Hm.
    + right. destruct (commitCmd_done h f message msg w Hf Hm)
        as (w' & Hd & _ & Hst).
      exists w'. now split.
    + left. exists (js "randomFailure"). unfold commitCmd. now rewrite Hm.
  - left. unfold commitCmd. rewrite Hf.
    destruct (if truthy_str (and_str message (trim message))
              then Some (trim message) else randomFailure h);
      eexists; reflexivity.
Qed.

Lemma pushCmd_nothing (env : Env) (w : World) :
  pending (state w) = [] ->
  state (pushCmd env w) = state w /\ storage (pushCmd env w) = storage w.
Proof.
  intros H. unfold pushCmd. rewrite H, print_state, print_storage.
  now split.
Qed.

Lemma mottoCmd_blank (text : jsstring) (w : World) :
  trim text = [] ->
  state (mottoCmd text w) = state w /\ storage (mottoCmd text w) = storage w.
Proof.
  intros H. unfold mottoCmd. rewrite and_str_trim, H. simpl.
  rewrite print_state, print_storage. now split.
Qed.

Lemma mottoCmd_added (text : jsstring) (w : World) :
  trim text <> [] ->
  state (mottoCmd text w)
  = mkState (pending (state w)) (entries (state w))
      (mottos (state w) ++ [trim text]) /\
  in_sync (mottoCmd text w).
Proof.
  intros H. unfold mottoCmd, in_sync. rewrite and_str_trim.
  destruct (trim text) as [|c t]; [congruence|]. cbn [truthy_str negb].
  rewrite print_state, print_storage. now split.
Qed.

(** The dispatch of [handleCommand] in terms of the command and the
    argument of the line. *)
Lemma handleCommand_dispatch (h : Host) (env : Env) (raw : jsstring)
    (w : World) :
  handleCommand h env raw w =
  Returns
    (if jsstring_eqb (command_of raw) (js "help") then Done (help w)
     else if jsstring_eqb (command_of raw) (js "about") then Done (aboutCmd w)
     else if jsstring_eqb (command_of raw) (js "log") then Done (logCmd w)
     else if jsstring_eqb (command_of raw) (js "commit")
          then commitCmd h (argument_of raw) w
     else if jsstring_eqb (command_of raw) (js "push")
          then Done (pushCmd env w)
     else if jsstring_eqb (command_of raw) (js "clear")
          then Done (clearScreen w)
     else if jsstring_eqb (command_of raw) (js "motto")
          then Done (mottoCmd (argument_of raw) w)
     else if jsstring_eqb (command_of raw) (js "stats")
          then Done (statsCmd env w)
     else Done (print (js "git: '" ++ template_text (first_token raw)
                         ++ js "' is not a git command. See 'help'.")
                  ClsErr w)).
Proof.
  unfold handleCommand, command_of, argument_of, first_token.
  destruct (tokenize_total raw) as [toks H]. rewrite H.
  now destruct toks.
Qed.

Ltac split_command raw :=
  destruct (jsstring_eqb (command_of raw) (js "help")) eqn:Hhelp;
  [|destruct (jsstring_eqb (command_of raw) (js "about")) eqn:Habout;
    [|destruct (jsstring_eqb (command_of raw) (js "log")) eqn:Hlog;
      [|destruct (jsstring_eqb (command_of raw) (js "commit")) eqn:Hcommit;
        [|destruct (jsstring_eqb (command_of raw) (js "push")) eqn:Hpush;
          [|destruct (jsstring_eqb (command_of raw) (js "clear")) eqn:Hclear;
            [|destruct (jsstring_eqb (command_of raw) (js "motto"))
                eqn:Hmotto;
              [|destruct (jsstring_eqb (command_of raw) (js "stats"))
                  eqn:Hstats]]]]]]].

Ltac by_command raw :=
  rewrite (handleCommand_dispatch _ _ raw); split_command raw.

Lemma jsstring_eqb_neq (a b : jsstring) : jsstring_eqb a b = false -> a <> b.
Proof.
  intros H E. apply jsstring_eqb_eq in E. congruence.
Qed.

Lemma handleCommand_total (h : Host) (env : Env) (raw : jsstring)
    (w : World) :
  exists o, handleCommand h env raw w = Returns o.
Proof. rewrite handleCommand_dispatch. now eexists. Qed.

(** ** More on the tokens *)

Lemma next_token_lengths (s tok rest : jsstring) :
  next_token s = Some (tok, rest) ->
  (length tok + length rest <= length s)%nat.
Proof.
  induction s as [|c t IH]; simpl; [discriminate|].
  destruct (is_space c).
  - intros H. specialize (IH H). lia.
  - destruct (quoted_run c t) as [[body r]|] eqn:Hq.
    + intros [= <- <-].
      destruct (quoted_run_spec c t body r Hq) as (_ & -> & _).
      rewrite length_app. simpl. lia.
    + destruct (span_nonspace t) as [run r] eqn:Hs. intros [= <- <-].
      destruct (span_nonspace_spec t run r Hs) as (-> & _ & _).
      rewrite length_app. simpl. lia.
Qed.

Lemma tokenize_shape (n : nat) (s : jsstring) :
  (length s <= n)%nat ->
  exists toks,
    tokenize s = Returns (map Some toks) /\
    (length toks <= length s)%nat /\
    (length (concat toks) <= length s)%nat.
Proof.
  revert s. induction n as [|n IH]; intros s Hn.
  - destruct s; [|simpl in Hn; lia]. exists []. now repeat split.
  - rewrite tokenize_next.
    destruct (next_token s) as [[tok rest]|] eqn:E.
    + pose proof (next_token_shorter s tok rest E) as Hlt.
      pose proof (next_token_lengths s tok rest E) as Hle.
      destruct (IH rest) as (toks & Ht & H1 & H2); [lia|].
      exists (tok :: toks). rewrite Ht. simpl. rewrite length_app.
      repeat split; [lia|lia].
    + exists []. simpl. repeat split; lia.
Qed.

(** Every element [tokenize] returns is a string, never [undefined]; a
    line has at most as many tokens as characters, and the tokens together
    are no longer than the line.  A line with a character that is not
    white space has a first token. *)
Theorem tokenize_tokens (s : jsstring) :
  exists toks,
    tokenize s = Returns (map Some toks) /\
    (length toks <= length s)%nat /\
    (length (concat toks) <= length s)%nat /\
    (Exists (fun c => is_space c = false) s ->
     exists t, first_token s = Some t).
Proof.
  destruct (tokenize_shape (length s) s (le_n _)) as (toks & Ht & H1 & H2).
  exists toks. repeat split; try assumption.
  intros Hex. unfold first_token. rewrite Ht.
  destruct toks as [|t toks']; [|now exists t].
  exfalso. apply tokenize_nil_iff in Ht.
  apply Exists_exists in Hex. destruct Hex as (c & Hc & Hs).
  rewrite Forall_forall in Ht. specialize (Ht c Hc). congruence.
Qed.

Lemma tokenize_tokens_witness :
  exists t, first_token (js "  push  ") = Some t.
Proof.
  destruct (tokenize_tokens (js "  push  ")) as (toks & _ & _ & _ & H).
  apply H. vm_compute. apply Exists_cons_tl, Exists_cons_tl, Exists_cons_hd.
  reflexivity.
Defined.

Lemma plain_char_spec (c : N) :
  plain_char c = true ->
  is_space c = false /\ c <> dquote /\ c <> squote.
Proof.
  unfold plain_char. rewrite !andb_true_iff, !negb_true_iff, !N.eqb_neq.
  intuition.
Qed.

Lemma run_ends_spaces (post : jsstring) :
  Forall (fun c => is_space c = true) post -> run_ends post.
Proof. intros H. destruct H; simpl; trivial. Qed.

Lemma tokenize_join_padded (ws : list jsstring) (post : jsstring) :
  Forall plain_word ws ->
  Forall (fun c => is_space c = true) post ->
  tokenize (join (js " ") ws ++ post) = Returns (map Some ws).
Proof.
  intros Hw Hpost. induction ws as [|x ws' IH].
  - now apply tokenize_nil_iff.
  - inversion Hw as [|? ? [Hne Hx] Hws]; subst.
    destruct x as [|c run]; [congruence|].
    inversion Hx as [|? ? Hc Hrun]; subst.
    destruct (plain_char_spec c Hc) as (Hsp & Hd & Hs).
    assert (Hrun' : Forall (fun d => is_space d = false) run).
    { apply Forall_forall. intros d Hin. rewrite Forall_forall in Hrun.
      now destruct (plain_char_spec d (Hrun d Hin)). }
    destruct ws' as [|y ws''].
    + change (join (js " ") [c :: run] ++ post) with (c :: run ++ post).
      rewrite (tokenize_bare c run post); try assumption; try easy.
      * now rewrite (proj2 (tokenize_nil_iff post) Hpost).
      * now apply run_ends_spaces.
    + change (join (js " ") ((c :: run) :: y :: ws''))
        with ((c :: run) ++ space :: join (js " ") (y :: ws'')).
      rewrite <- app_assoc.
      change ((c :: run) ++ (space :: join (js " ") (y :: ws'')) ++ post)
        with (c :: run ++ space :: (join (js " ") (y :: ws'') ++ post)).
      rewrite (tokenize_bare c run (space :: _)); try assumption; try easy.
      rewrite (tokenize_space space _ eq_refl), (IH Hws). reflexivity.
Qed.

(** Words without white space and quotes, joined by single spaces, are
    tokenized back into the same words, also with white space before the
    first and after the last word: for such words [tokenize] undoes
    [join]. *)
Theorem tokenize_join (ws : list jsstring) (pre post : jsstring) :
  Forall plain_word ws ->
  Forall (fun c => is_space c = true) pre ->
  Forall (fun c => is_space c = true) post ->
  tokenize (pre ++ join (js " ") ws ++ post) = Returns (map Some ws).
Proof.
  intros Hw Hpre Hpost. induction Hpre as [|c pre' Hc _ IH].
  - now apply tokenize_join_padded.
  - change ((c :: pre') ++ join (js " ") ws ++ post)
      with (c :: (pre' ++ join (js " ") ws ++ post)).
    now rewrite (tokenize_space c _ Hc).
Qed.

Lemma tokenize_join_witness :
  tokenize (js " " ++ join (js " ") [js "fix"; js "prod"; js "now"]
            ++ js "  ")
  = Returns [Some (js "fix"); Some (js "prod"); Some (js "now")].
Proof.
  apply (tokenize_join [js "fix"; js "prod"; js "now"] (js " ") (js "  ")).
  - repeat constructor; try discriminate.
  - repeat constructor.
  - repeat constructor.
Defined.

(** A command line of plain words: the first word, in lower case, selects
    the command, and the handler gets the other words joined by single
    spaces. *)
Theorem command_line_words (cmd : jsstring) (ws : list jsstring) :
  plain_word cmd ->
  Forall plain_word ws ->
  command_of (join (js " ") (cmd :: ws)) = toLowerCase cmd /\
  argument_of (join (js " ") (cmd :: ws)) = join (js " ") ws.
Proof.
  intros Hc Hw.
  assert (Ht : tokenize (join (js " ") (cmd :: ws))
               = Returns (map Some (cmd :: ws)))
    by (rewrite <- (app_nil_r (join (js " ") (cmd :: ws)));
        apply tokenize_join_padded; now constructor).
  unfold command_of, first_token, argument_of. rewrite Ht. simpl.
  split; [reflexivity|]. now rewrite map_map, map_id.
Qed.

Lemma command_line_words_witness :
  command_of (join (js " ") [js "MOTTO"; js "ship"; js "it"]) = js "motto" /\
  argument_of (join (js " ") [js "MOTTO"; js "ship"; js "it"])
  = js "ship it".
Proof.
  apply (command_line_words (js "MOTTO") [js "ship"; js "it"]).
  - split; [discriminate|repeat constructor].
  - repeat constructor; discriminate.
Defined.

(** ** Commands that only read *)

(** A command other than commit, push and motto changes neither the state
    nor the stored record, and completes: help, about, log, clear, stats
    and every unknown command only write to the screen. *)
Theorem handleCommand_read_only (h : Host) (env : Env) (raw : jsstring)
    (w : World) :
  command_of raw <> js "commit" ->
  command_of raw <> js "push" ->
  command_of raw <> js "motto" ->
  exists w',
    handleCommand h env raw w = Returns (Done w') /\
    state w' = state w /\ storage w' = storage w.
Proof.
  intros Hc Hp Hm. by_command raw;
    try (apply jsstring_eqb_eq in Hcommit; contradiction);
    try (apply jsstring_eqb_eq in Hpush; contradiction);
    try (apply jsstring_eqb_eq in Hmotto; contradiction);
    eexists; (split; [reflexivity|]).
  - apply help_state.
  - apply aboutCmd_state.
  - apply logCmd_state.
  - apply clearScreen_state.
  - apply statsCmd_state.
  - split; [apply print_state|apply print_storage].
Qed.

Lemma handleCommand_read_only_witness :
  exists w',
    handleCommand script_only sample_env (js "LOG") seeded_world
    = Returns (Done w') /\
    state w' = state seeded_world /\ storage w' = storage seeded_world.
Proof.
  apply (handleCommand_read_only script_only sample_env (js "LOG")
           seeded_world); vm_compute; discriminate.
Defined.

(** A line whose first token is none of the eight command names, whatever
    its case, prints one error line that quotes the token as it was typed
    and points to help; nothing else happens and the handler completes. *)
Theorem handleCommand_unknown (h : Host) (env : Env) (raw : jsstring)
    (w : World) :
  ~ In (command_of raw) command_names ->
  handleCommand h env raw w
  = Returns
      (Done (print (js "git: '" ++ template_text (first_token raw)
                      ++ js "' is not a git command. See 'help'.")
               ClsErr w)).
Proof.
  intros Hn.
  assert (Hne : forall name, In name command_names ->
                             jsstring_eqb (command_of raw) name = false).
  { intros name Hin. destruct (jsstring_eqb (command_of raw) name) eqn:E;
      [|reflexivity].
    apply jsstring_eqb_eq in E. rewrite E in Hn. contradiction. }
  rewrite handleCommand_dispatch.
  rewrite !Hne; [reflexivity| | | | | | | |]; simpl; tauto.
Qed.

Lemma handleCommand_unknown_witness :
  handleCommand script_only sample_env (js "Status now") empty_world
  = Returns
      (Done (print (js "git: 'Status' is not a git command. See 'help'.")
               ClsErr empty_world)).
Proof.
  apply (handleCommand_unknown script_only sample_env (js "Status now")
           empty_world).
  vm_compute. intuition discriminate.
Defined.

(** Two lines with the same command, up to the case of its letters, and
    the same argument text are handled alike: the case of a command name,
    the white space between the tokens and quotes around a token make no
    difference. *)
Theorem handleCommand_same_command (h : Host) (env : Env)
    (raw1 raw2 : jsstring) (w : World) :
  In (command_of raw1) command_names ->
  command_of raw1 = command_of raw2 ->
  argument_of raw1 = argument_of raw2 ->
  handleCommand h env raw1 w = handleCommand h env raw2 w.
Proof.
  intros Hin Hc Ha.
  rewrite (handleCommand_dispatch h env raw1),
          (handleCommand_dispatch h env raw2), <- Hc, <- Ha.
  split_command raw1; try reflexivity.
  exfalso. simpl in Hin.
  apply jsstring_eqb_neq in Hhelp, Habout, Hlog, Hcommit, Hpush, Hclear,
    Hmotto, Hstats.
  intuition congruence.
Qed.

Lemma handleCommand_same_command_witness :
  handleCommand sample_host sample_env (js "COMMIT  fix   prod") empty_world
  = handleCommand sample_host sample_env
      (js "commit " ++ quoted "fix prod") empty_world.
Proof.
  apply (handleCommand_same_command sample_host sample_env
           (js "COMMIT  fix   prod") (js "commit " ++ quoted "fix prod")
           empty_world).
  - vm_compute. tauto.
  - vm_compute. reflexivity.
  - vm_compute. reflexivity.
Defined.

(** ** The stored record follows the state *)

Lemma renderFailsPage_state (w : World) :
  state (world_of (renderFailsPage w)) = state w /\
  storage (world_of (renderFailsPage w)) = storage w.
Proof.
  unfold renderFailsPage. destruct (els_failsRoot (els w)); now split.
Qed.

Lemma in_sync_reads_back (w : World) : in_sync w -> reads_back w.
Proof. unfold in_sync, reads_back. intros ->. reflexivity. Qed.







(** ** log *)

Lemma fold_print_screen {A} (g : A -> jsstring) (c : cls) (xs : list A)
    (w : World) :
  els_screen (els (fold_left (fun w' x => print (g x) c w') xs w))
  = option_map (fun ls => ls ++ map (fun x => (c, g x)) xs)
      (els_screen (els w)).
Proof.
  revert w. induction xs as [|x xs' IH]; intros w; simpl.
  - destruct (els_screen (els w)); simpl; [now rewrite app_nil_r|reflexivity].
  - rewrite IH, print_screen. destruct (els_screen (els w)); simpl;
      [now rewrite <- app_assoc|reflexivity].
Qed.

(** [log] adds one line for each entry, the most recent entry first and
    the oldest last, each with the id, the date, the message and the
    lesson of its entry; when there is no entry it adds the one warning
    line instead.  The lines already on the screen stay. *)
Theorem logCmd_lines (w : World) (ls : list line) :
  els_screen (els w) = Some ls ->
  els_screen (els (logCmd w))
  = Some (ls ++ match entries (state w) with
                | [] => [(ClsWarn,
                          js "no commits yet " ++ emdash
                          ++ js " make one with commit " ++ quoted "message")]
                | _ => map (fun e => (ClsOk, log_text e))
                         (rev (entries (state w)))
                end).
Proof.
  intros Hs. unfold logCmd. destruct (entries (state w)) as [|e l].
  - now rewrite print_screen, Hs.
  - rewrite (fold_print_screen log_text), Hs. reflexivity.
Qed.

Lemma logCmd_lines_witness :
  els_screen (els (logCmd seeded_world))
  = Some (map (fun e => (ClsOk, log_text e))
            (rev (entries (state seeded_world)))).
Proof.
  exact (logCmd_lines seeded_world [] eq_refl).
Defined.

(** ** push with something staged *)

Lemma print_els_list (t : jsstring) (c : cls) (w : World) :
  els_list (els (print t c w)) = els_list (els w).
Proof. apply print_lists. Qed.

Lemma new_entries_length (env : Env) (i : nat) (ps : list PendingItem) :
  length (new_entries env i ps) = length ps.
Proof.
  revert i. induction ps as [|p ps' IH]; intros i; simpl; [reflexivity|].
  now rewrite IH.
Qed.

Lemma new_entries_texts (env : Env) (i : nat) (ps : list PendingItem) :
  map entry_message (new_entries env i ps) = map pending_message ps /\
  map entry_lesson (new_entries env i ps) = map pending_lesson ps /\
  map entry_date (new_entries env i ps)
  = map (localeDate env) (seq i (length ps)).
Proof.
  revert i. induction ps as [|p ps' IH]; intros i; simpl;
    [now repeat split|].
  destruct (IH (S i)) as (H1 & H2 & H3). rewrite H1, H2, H3.
  now repeat split.
Qed.

(** With something staged, [push] turns every staged item into one new
    entry at the end of [entries], in the order of staging and with the
    message and the lesson of its item and the date of the day; earlier
    entries and [mottos] stay, [pending] is emptied, the new state is
    stored, so that [loadState] reads it back from the stored record, the
    success line is printed and the recent list of the home page is drawn
    again from the new entries. *)
Theorem pushCmd_staged_spec (env : Env) (w : World) :
  pending (state w) <> [] ->
  exists new,
    entries (state (pushCmd env w)) = entries (state w) ++ new /\
    length new = length (pending (state w)) /\
    map entry_message new = map pending_message (pending (state w)) /\
    map entry_lesson new = map pending_lesson (pending (state w)) /\
    map entry_date new
    = map (localeDate env) (seq 0 (length (pending (state w)))) /\
    pending (state (pushCmd env w)) = [] /\
    mottos (state (pushCmd env w)) = mottos (state w) /\
    in_sync (pushCmd env w) /\
    loadState (storage (pushCmd env w)) = state_json (state (pushCmd env w))
    /\
    els_screen (els (pushCmd env w))
    = option_map
        (fun ls => ls ++ [(ClsOk, js "pushed to origin " ++ tada
                                  ++ js " failures celebrated")])
        (els_screen (els w)) /\
    els_list (els (pushCmd env w))
    = option_map
        (fun _ => map homeItemHtml
                    (slice 0 5 (rev (entries (state (pushCmd env w))))))
        (els_list (els w)).
Proof.
  intros H. destruct (pushCmd_staged env w H) as [Hs Hst].
  destruct (new_entries_texts env 0 (pending (state w))) as (H1 & H2 & H3).
  exists (new_entries env 0 (pending (state w))).
  rewrite Hs. simpl.
  split; [reflexivity|]. split; [apply new_entries_length|].
  split; [assumption|]. split; [assumption|]. split; [assumption|].
  split; [reflexivity|]. split; [reflexivity|]. split; [assumption|].
  split.
  { pose proof (in_sync_reads_back _ Hst) as Hrb. unfold reads_back in Hrb.
    now rewrite Hs in Hrb. }
  unfold pushCmd. destruct (pending (state w)) as [|p ps]; [congruence|].
  unfold party, renderHomeLists. simpl.
  rewrite !print_state, print_screen, print_els_list. simpl.
  split; [reflexivity|]. now destruct (els_list (els w)).
Qed.

Lemma pushCmd_staged_spec_witness :
  exists new,
    entries (state (pushCmd sample_env two_pending_world)) = [] ++ new /\
    map entry_message new = [js "a"; js "c"].
Proof.
  destruct (pushCmd_staged_spec sample_env two_pending_world)
    as (new & H1 & _ & H2 & _).
  { discriminate. }
  exists new. split; assumption.
Defined.

(** A second [push] right after a [push] changes nothing: the first one
    has emptied [pending], so the state and the stored record stay as the
    first one left them. *)
Theorem pushCmd_twice (env env' : Env) (w : World) :
  state (pushCmd env' (pushCmd env w)) = state (pushCmd env w) /\
  storage (pushCmd env' (pushCmd env w)) = storage (pushCmd env w).
Proof.
  apply pushCmd_nothing.
  destruct (pending (state w)) as [|p ps] eqn:E.
  - now rewrite (proj1 (pushCmd_nothing env w E)).
  - assert (H : pending (state w) <> []) by congruence.
    now rewrite (proj1 (pushCmd_staged env w H)).
Qed.

(** ** commit and push on a page that binds the helpers *)

Lemma lastn_one_app {A} (l : list A) (x : A) : lastn 1 (l ++ [x]) = [x].
Proof.
  unfold lastn. rewrite length_app. simpl.
  replace (length l + 1 - 1)%nat with (length l) by lia.
  rewrite skipn_app, skipn_all, Nat.sub_diag. reflexivity.
Qed.

(** On a page that binds [suggestLesson] and [randomFailure], [commit]
    completes: it stages exactly one item at the end of [pending], with
    the trimmed text, or the message of [randomFailure] for a blank text,
    and the lesson [suggestLesson] gives for it; [entries] and [mottos]
    stay, the state is stored, so that [loadState] reads it back from the
    stored record, and two lines are printed, the second with the message
    and the lesson just staged. *)
Theorem commitCmd_bound (h : Host) (f : jsstring -> jsstring)
    (canned message : jsstring) (w : World) :
  suggestLesson h = Some f ->
  randomFailure h = Some canned ->
  exists w',
    commitCmd h message w = Done w' /\
    pending (state w')
    = pending (state w)
      ++ [mkPending (staged_message canned message)
            (f (staged_message canned message))] /\
    entries (state w') = entries (state w) /\
    mottos (state w') = mottos (state w) /\
    in_sync w' /\
    loadState (storage w') = state_json (state w') /\
    els_screen (els w')
    = option_map
        (fun ls =>
           ls ++ [(ClsOk, js "staged 1 file for commit");
                  (ClsInfo,
                   js "changes staged:" ++ nl ++ js "  fail:   "
                   ++ staged_message canned message ++ nl
                   ++ js "  lesson: "
                   ++ f (staged_message canned message))])
        (els_screen (els w)).
Proof.
  intros Hf Hr.
  destruct (commitCmd_with_helpers h f canned message w Hf Hr)
    as (w' & Hd & Hp & He & Hm & Hst).
  exists w'. repeat (split; [assumption|]).
  split; [now apply in_sync_reads_back|].
  unfold commitCmd in Hd. rewrite Hf, Hr, and_str_trim in Hd.
  assert (Hmsg : (if truthy_str (trim message)
                  then Some (trim message) else Some canned)
                 = Some (staged_message canned message))
    by (unfold staged_message; now destruct (trim message)).
  rewrite Hmsg in Hd. cbv zeta in Hd. injection Hd as <-.
  rewrite (fold_print_screen
             (fun p => js "changes staged:" ++ nl ++ js "  fail:   "
                       ++ pending_message p ++ nl ++ js "  lesson: "
                       ++ pending_lesson p)).
  rewrite !print_state, print_screen. simpl state.
  cbn [pending]. rewrite lastn_one_app.
  change (els (save (push_pending _ w))) with (els w).
  destruct (els_screen (els w)); simpl; [|reflexivity].
  now rewrite <- app_assoc.
Qed.

Lemma commitCmd_bound_witness :
  exists w',
    commitCmd sample_host (js "   ") seeded_world = Done w' /\
    pending (state w')
    = [mkPending (js "It broke") (js "lesson for It broke")].
Proof.
  destruct (commitCmd_bound sample_host _ (js "It broke") (js "   ")
              seeded_world eq_refl eq_refl) as (w' & Hd & Hp & _).
  exists w'. split; [exact Hd|]. rewrite Hp. reflexivity.
Defined.

(** On a page that binds [suggestLesson] and [randomFailure], a [commit]
    followed by a [push] appends to [entries] one entry for every item
    staged before and last the entry of this commit, with the trimmed text
    or the canned message, and leaves nothing staged. *)
Theorem commit_then_push (h : Host) (f : jsstring -> jsstring)
    (canned message : jsstring) (env : Env) (w : World) :
  suggestLesson h = Some f ->
  randomFailure h = Some canned ->
  exists w1,
    commitCmd h message w = Done w1 /\
    entries (state (pushCmd env w1))
    = entries (state w)
      ++ new_entries env 0
           (pending (state w)
            ++ [mkPending (staged_message canned message)
                  (f (staged_message canned message))]) /\
    pending (state (pushCmd env w1)) = [].
Proof.
  intros Hf Hr.
  destruct (commitCmd_with_helpers h f canned message w Hf Hr)
    as (w1 & Hd & Hp & He & _).
  exists w1. split; [exact Hd|].
  assert (Hne : pending (state w1) <> []).
  { rewrite Hp. now destruct (pending (state w)). }
  rewrite (proj1 (pushCmd_staged env w1 Hne)), Hp, He. now split.
Qed.

Lemma commit_then_push_witness :
  exists w1,
    commitCmd sample_host (js " I broke prod ") empty_world = Done w1 /\
    map entry_message (entries (state (pushCmd sample_env w1)))
    = [js "I broke prod"].
Proof.
  destruct (commit_then_push sample_host _ (js "It broke")
              (js " I broke prod ") sample_env empty_world eq_refl eq_refl)
    as (w1 & Hd & He & _).
  exists w1. split; [exact Hd|]. rewrite He. reflexivity.
Defined.

(** ** Adding mottos *)

Lemma mottoCmd_mottos (text : jsstring) (w : World) :
  mottos (state (mottoCmd text w))
  = mottos (state w) ++ (if not_blank text then [trim text] else []) /\
  pending (state (mottoCmd text w)) = pending (state w) /\
  entries (state (mottoCmd text w)) = entries (state w).
Proof.
  unfold not_blank. destruct (trim text) as [|c t] eqn:E.
  - rewrite (proj1 (mottoCmd_blank text w E)). simpl.
    now rewrite app_nil_r.
  - assert (H : trim text <> []) by congruence.
    rewrite (proj1 (mottoCmd_added text w H)), E. now repeat split.
Qed.

(** A series of [motto] commands appends the trimmed texts to [mottos] in
    the order of the commands, skips the blank ones, and never touches
    [pending] or [entries]. *)
Theorem mottoCmd_series (texts : list jsstring) (w : World) :
  mottos (state (fold_left (fun w' t => mottoCmd t w') texts w))
  = mottos (state w) ++ map trim (filter not_blank texts) /\
  pending (state (fold_left (fun w' t => mottoCmd t w') texts w))
  = pending (state w) /\
  entries (state (fold_left (fun w' t => mottoCmd t w') texts w))
  = entries (state w).
Proof.
  revert w. induction texts as [|t texts' IH]; intros w; simpl.
  - now rewrite app_nil_r.
  - destruct (IH (mottoCmd t w)) as (H1 & H2 & H3).
    destruct (mottoCmd_mottos t w) as (M1 & M2 & M3).
    rewrite H1, H2, H3, M1, M2, M3.
    repeat split. destruct (not_blank t); simpl.
    + now rewrite <- app_assoc.
    + now rewrite app_nil_r.
Qed.

(** The form of the mottos page and the [motto] command add a motto in
    the same way: for the same text they leave the same state and the same
    stored record.  A blank text changes nothing and does not draw the
    page again; any other text is appended trimmed, and the page then
    lists all mottos in the order they are stored, the new one last. *)
Theorem mottoFormSubmit_as_command (value : jsstring) (w : World) :
  state (fst (mottoFormSubmit value w)) = state (mottoCmd value w) /\
  storage (fst (mottoFormSubmit value w)) = storage (mottoCmd value w) /\
  (trim value = [] -> mottoFormSubmit value w = (w, None)) /\
  (trim value <> [] ->
   snd (mottoFormSubmit value w) = Some (mottos (state w) ++ [trim value])).
Proof.
  assert (Hv : or_str value [] = value) by now destruct value.
  unfold mottoFormSubmit. rewrite Hv.
  destruct (trim value) as [|c t] eqn:E.
  - destruct (mottoCmd_blank value w E) as [H1 H2]. rewrite H1, H2. simpl.
    repeat split. congruence.
  - assert (H : trim value <> []) by congruence.
    destruct (mottoCmd_added value w H) as [H1 H2].
    rewrite H1, H2, H1, E. simpl. repeat split. discriminate.
Qed.

Lemma mottoFormSubmit_as_command_witness :
  snd (mottoFormSubmit (js " Fail forward ") seeded_world)
  = Some (mottos (state seeded_world) ++ [js "Fail forward"]).
Proof.
  apply (mottoFormSubmit_as_command (js " Fail forward ") seeded_world).
  vm_compute. discriminate.
Defined.

(** ** The lists of the pages *)

Lemma recent_nth {A B} (f : A -> B) (n i : nat) (l : list A) :
  (i < Nat.min n (length l))%nat ->
  nth_error (map f (firstn n (rev l))) i
  = option_map f (nth_error l (length l - S i)).
Proof.
  intros Hi. rewrite nth_error_map, nth_error_firstn, nth_error_rev.
  destruct (Nat.ltb_spec i n); [|lia].
  destruct (Nat.ltb_spec i (length l)); [reflexivity|lia].
Qed.

Lemma renderHomeLists_list (w : World) :
  els_list (els (renderHomeLists w))
  = option_map
      (fun _ => map homeItemHtml (firstn 5 (rev (entries (state w)))))
      (els_list (els w)).
Proof.
  unfold renderHomeLists. now destruct (els_list (els w)).
Qed.

Lemma renderHomeLists_mottos (w : World) :
  els_mottosList (els (renderHomeLists w))
  = option_map (fun _ => lastn 6 (mottos (state w)))
      (els_mottosList (els w)).
Proof.
  unfold renderHomeLists. now destruct (els_mottosList (els w)).
Qed.

(** On the home page [renderHomeLists] shows the five most recent
    entries, or all of them when there are fewer, the most recent first,
    and the last six mottos, or all of them, in the order they are
    stored.  It reads the state only, and drawing twice shows the same as
    drawing once. *)
Theorem renderHomeLists_recent (w : World) (old oldm : list jsstring) :
  els_list (els w) = Some old ->
  els_mottosList (els w) = Some oldm ->
  exists items shown earlier,
    els_list (els (renderHomeLists w)) = Some items /\
    els_mottosList (els (renderHomeLists w)) = Some shown /\
    length items = Nat.min 5 (length (entries (state w))) /\
    (forall i, (i < length items)%nat ->
       nth_error items i
       = option_map homeItemHtml
           (nth_error (entries (state w))
              (length (entries (state w)) - S i))) /\
    length shown = Nat.min 6 (length (mottos (state w))) /\
    mottos (state w) = earlier ++ shown /\
    state (renderHomeLists w) = state w /\
    storage (renderHomeLists w) = storage w /\
    renderHomeLists (renderHomeLists w) = renderHomeLists w.
Proof.
  intros Hl Hm.
  exists (map homeItemHtml (firstn 5 (rev (entries (state w))))),
         (lastn 6 (mottos (state w))),
         (firstn (length (mottos (state w)) - 6) (mottos (state w))).
  assert (Hlen : length (map homeItemHtml
                           (firstn 5 (rev (entries (state w)))))
                 = Nat.min 5 (length (entries (state w))))
    by now rewrite length_map, length_firstn, length_rev.
  rewrite renderHomeLists_list, renderHomeLists_mottos, Hl, Hm.
  split; [reflexivity|]. split; [reflexivity|]. split; [exact Hlen|].
  split.
  { intros i Hi. apply recent_nth. now rewrite <- Hlen. }
  split.
  { unfold lastn. rewrite length_skipn. lia. }
  split.
  { unfold lastn. now rewrite firstn_skipn. }
  split; [reflexivity|]. split; [reflexivity|].
  unfold renderHomeLists. rewrite Hl, Hm. reflexivity.
Qed.

Lemma renderHomeLists_recent_witness :
  exists items,
    els_list (els (renderHomeLists seeded_world)) = Some items /\
    length items = 2%nat.
Proof.
  destruct (renderHomeLists_recent seeded_world [] [] eq_refl eq_refl)
    as (items & _ & _ & H1 & _ & H2 & _).
  exists items. split; assumption.
Defined.



(** ** More on the delete button *)

Lemma findIndex_app_last {A} (f : A -> bool) (l : list A) (x : A) :
  (forall y, In y l -> f y = false) ->
  f x = true ->
  findIndex f (l ++ [x]) = Some (length l).
Proof.
  intros Hl Hx. induction l as [|a l' IH]; simpl.
  - now rewrite Hx.
  - rewrite (Hl a (or_introl eq_refl)), IH; [reflexivity|].
    intros y Hy. apply Hl. now right.
Qed.

Lemma deleteClick_entries (eid : jsstring) (w : World) :
  (exists l1 x l2,
     entries (state w) = l1 ++ x :: l2 /\
     entry_id x = eid /\
     entries (state (world_of (deleteClick eid w))) = l1 ++ l2) \/
  (~ In eid (map entry_id (entries (state w))) /\ deleteClick eid w = Done w).
Proof.
  unfold deleteClick.
  destruct (findIndex (fun x => jsstring_eqb (entry_id x) eid)
              (entries (state w))) as [idx|] eqn:Hf.
  - left. destruct (findIndex_some _ _ _ Hf)
      as (l1 & x & l2 & Hent & Hlen & Hx & _).
    exists l1, x, l2. split; [assumption|].
    split; [now apply jsstring_eqb_eq|].
    rewrite (proj1 (renderFailsPage_state _)). simpl.
    rewrite Hent, <- Hlen. apply splice1_at.
  - right. split; [|reflexivity].
    intros Hin. apply in_map_iff in Hin. destruct Hin as (x & Hid & Hx).
    pose proof (findIndex_none _ _ Hf x Hx) as Hn. simpl in Hn.
    apply jsstring_eqb_neq in Hn. contradiction.
Qed.

(** A click for an id that no entry has changes nothing.  When the ids of
    the entries are unique, they are still unique after a delete, and no
    entry with the deleted id is left. *)
Theorem deleteClick_ids (eid : jsstring) (w : World) :
  (~ In eid (map entry_id (entries (state w))) ->
   deleteClick eid w = Done w) /\
  (NoDup (map entry_id (entries (state w))) ->
   NoDup (map entry_id (entries (state (world_of (deleteClick eid w))))) /\
   ~ In eid (map entry_id
               (entries (state (world_of (deleteClick eid w)))))).
Proof.
  destruct (deleteClick_entries eid w)
    as [(l1 & x & l2 & Hent & Hid & Hafter)|[Hn Hd]].
  - split.
    + intros Hn. exfalso. apply Hn. rewrite Hent, map_app. simpl.
      apply in_or_app. right. left. assumption.
    + intros Hnd. rewrite Hafter. rewrite Hent, map_app in Hnd.
      simpl in Hnd. rewrite Hid in Hnd. rewrite map_app.
      split; [now apply NoDup_remove_1 in Hnd|
              now apply NoDup_remove_2 in Hnd].
  - split; [intros _; exact Hd|].
    intros Hnd. rewrite Hd. simpl. now split.
Qed.

Lemma deleteClick_ids_witness :
  ~ In (entry_id first_seed)
      (map entry_id
         (entries (state (world_of (deleteClick (entry_id first_seed)
                                      fails_page_world))))).
Proof.
  apply (deleteClick_ids (entry_id first_seed) fails_page_world).
  vm_compute. repeat constructor; simpl; intuition discriminate.
Defined.

(** Deleting undoes a push: when one item is staged and the id drawn for
    it is not the id of an entry, pushing it and then deleting the new
    entry by its id leaves [entries] exactly as it was before the push. *)
Theorem delete_after_push (env : Env) (w : World) (p : PendingItem) :
  pending (state w) = [p] ->
  ~ In (shortId (random env 0)) (map entry_id (entries (state w))) ->
  entries (state (world_of (deleteClick (shortId (random env 0))
                              (pushCmd env w))))
  = entries (state w).
Proof.
  intros Hp Hfresh.
  assert (Hne : pending (state w) <> []) by (rewrite Hp; discriminate).
  destruct (pushCmd_staged env w Hne) as [Hs _].
  rewrite Hp in Hs. simpl in Hs.
  unfold deleteClick. rewrite Hs. simpl entries.
  rewrite (findIndex_app_last _ (entries (state w))).
  - rewrite (proj1 (renderFailsPage_state _)). simpl.
    rewrite splice1_at. apply app_nil_r.
  - intros y Hy. destruct (jsstring_eqb (entry_id y) _) eqn:E;
      [|reflexivity].
    apply jsstring_eqb_eq in E. exfalso. apply Hfresh. rewrite <- E.
    now apply in_map.
  - simpl. now apply jsstring_eqb_eq.
Qed.

Lemma delete_after_push_witness :
  entries (state (world_of (deleteClick (shortId (random sample_env 0))
                              (pushCmd sample_env one_pending_world))))
  = entries (state one_pending_world).
Proof.
  apply (delete_after_push sample_env one_pending_world
           (mkPending (js "a") (js "b")) eq_refl).
  vm_compute. intuition discriminate.
Defined.

(** ** stats *)

Lemma filter_length_le {A} (f : A -> bool) (l : list A) :
  (length (filter f l) <= length l)%nat.
Proof.
  induction l as [|a l' IH]; simpl; [lia|].
  destruct (f a); simpl; lia.
Qed.

Lemma filter_length_mono {A} (f g : A -> bool) (l : list A) :
  (forall x, f x = true -> g x = true) ->
  (length (filter f l) <= length (filter g l))%nat.
Proof.
  intros H. induction l as [|a l' IH]; simpl; [lia|].
  destruct (f a) eqn:Hf.
  - rewrite (H a Hf). simpl. lia.
  - destruct (g a); simpl; lia.
Qed.

Lemma filter_filter_implied {A} (f g : A -> bool) (l : list A) :
  (forall x, f x = true -> g x = true) ->
  filter f (filter g l) = filter f l.
Proof.
  intros H. induction l as [|a l' IH]; [reflexivity|]. simpl.
  destruct (g a) eqn:Hg; simpl.
  - now rewrite IH.
  - destruct (f a) eqn:Hf; [|exact IH].
    rewrite (H a Hf) in Hg. discriminate.
Qed.

(** The count [stats] makes for a window never exceeds the number of
    entries; entries whose date does not parse are never counted: the
    count is the same as without them; and a window that starts earlier
    counts at least as much, so that the count for 7 days is at most the
    count for 30 days unless the clock moves forward by more than 23 days
    between the two counts. *)
Theorem countSince_bounds (env : Env) (w : World) :
  (forall i days,
     (countSince env i days w <= length (entries (state w)))%nat) /\
  (forall i days,
     countSince env i days
       (set_state
          (mkState (pending (state w))
             (filter (fun e => match dateTime env (entry_date e) with
                               | Some _ => true
                               | None => false
                               end) (entries (state w)))
             (mottos (state w))) w)
     = countSince env i days w) /\
  (forall i days,
     (forall e, In e (entries (state w)) ->
                dateTime env (entry_date e) = None) ->
     countSince env i days w = 0%nat) /\
  (forall i j d1 d2,
     (now env j - d2 * 86400000 <= now env i - d1 * 86400000)%Z ->
     (countSince env i d1 w <= countSince env j d2 w)%nat) /\
  ((now env 1 - now env 0 <= 23 * 86400000)%Z ->
   (countSince env 0 7 w <= countSince env 1 30 w)%nat).
Proof.
  assert (Hmono : forall i j d1 d2,
     (now env j - d2 * 86400000 <= now env i - d1 * 86400000)%Z ->
     (countSince env i d1 w <= countSince env j d2 w)%nat).
  { intros i j d1 d2 H. unfold countSince. apply filter_length_mono.
    intros e. destruct (dateTime env (entry_date e)); [|discriminate].
    rewrite !Z.leb_le. lia. }
  split; [intros i days; apply filter_length_le|].
  split.
  { intros i days. unfold countSince. simpl. f_equal.
    apply filter_filter_implied. intros e.
    now destruct (dateTime env (entry_date e)). }
  split.
  { intros i days H. unfold countSince.
    induction (entries (state w)) as [|e l IH]; [reflexivity|]. simpl.
    rewrite (H e (or_introl eq_refl)). apply IH.
    intros e' He'. apply H. now right. }
  split; [exact Hmono|].
  intros H. apply Hmono. lia.
Qed.

Lemma countSince_bounds_witness :
  (countSince sample_env 0 7 seeded_world
   <= countSince sample_env 1 30 seeded_world)%nat.
Proof.
  apply (countSince_bounds sample_env seeded_world). vm_compute.
  discriminate.
Defined.

(** ** More on escaping *)

Lemma escapeHtml_app (a b : jsstring) :
  escapeHtml (a ++ b) = escapeHtml a ++ escapeHtml b.
Proof.
  induction a as [|c a' IH]; [reflexivity|].
  change ((c :: a') ++ b) with (c :: (a' ++ b)).
  rewrite !escapeHtml_cons, IH. now rewrite app_assoc.
Qed.

Lemma escapeHtml_length (s : jsstring) :
  (length s <= length (escapeHtml s))%nat.
Proof.
  induction s as [|c s' IH]; [reflexivity|].
  rewrite escapeHtml_cons, length_app.
  destruct (is_special c) eqn:Hc.
  - destruct (is_special_cases c Hc) as [-> | [-> | [-> | [-> | ->]]]];
      simpl; lia.
  - simpl. lia.
Qed.

Lemma escapeHtml_special_longer (c : N) (s : jsstring) :
  is_special c = true ->
  (length (c :: s) < length (escapeHtml (c :: s)))%nat.
Proof.
  intros Hc. rewrite escapeHtml_cons, Hc, length_app.
  pose proof (escapeHtml_length s).
  destruct (is_special_cases c Hc) as [-> | [-> | [-> | [-> | ->]]]];
    simpl; lia.
Qed.

(** [escapeHtml] works character by character, so escaping the parts of a
    text and joining them is escaping the whole; it never makes a text
    shorter; different texts stay different; and a text comes back
    unchanged exactly when it holds none of the five characters. *)
Theorem escapeHtml_texts :
  (forall a b, escapeHtml (a ++ b) = escapeHtml a ++ escapeHtml b) /\
  (forall s, (length s <= length (escapeHtml s))%nat) /\
  (forall a b, escapeHtml a = escapeHtml b -> a = b) /\
  (forall s, escapeHtml s = s
             <-> Forall (fun c => is_special c = false) s).
Proof.
  split; [exact escapeHtml_app|]. split; [exact escapeHtml_length|].
  split.
  { intros a b H. rewrite <- (decode_escapeHtml a), <- (decode_escapeHtml b).
    now rewrite H. }
  intros s. induction s as [|c s' IH].
  - split; [constructor|reflexivity].
  - destruct (is_special c) eqn:Hc.
    + split.
      * intros H. pose proof (escapeHtml_special_longer c s' Hc) as Hl.
        rewrite H in Hl. lia.
      * intros H. inversion H. congruence.
    + rewrite escapeHtml_cons, Hc. simpl. split.
      * intros [= H]. constructor; [assumption|now apply IH].
      * intros H. inversion H. f_equal. now apply IH.
Qed.

(** ** When two ids are the same *)

Lemma digit36_injective (d e : N) :
  d < 36 -> e < 36 -> digit36 d = digit36 e -> d = e.
Proof.
  unfold digit36. intros Hd He.
  destruct (N.ltb_spec d 10), (N.ltb_spec e 10); lia.
Qed.

Lemma Forall_firstn {A} (P : A -> Prop) (n : nat) (l : list A) :
  Forall P l -> Forall P (firstn n l).
Proof.
  intros H. revert n. induction H as [|a l' Ha _ IH]; intros [|n]; simpl;
    constructor; auto.
Qed.

Lemma map_digit36_injective (l1 l2 : list N) :
  Forall (fun d => d < 36) l1 ->
  Forall (fun d => d < 36) l2 ->
  map digit36 l1 = map digit36 l2 -> l1 = l2.
Proof.
  intros H1. revert l2. induction H1 as [|a l1' Ha _ IH];
    intros l2 H2 Hm; destruct l2 as [|b l2']; simpl in Hm;
    try discriminate; [reflexivity|].
  inversion H2; subst. injection Hm as Hab Hl.
  f_equal; [now apply digit36_injective|now apply IH].
Qed.

(** Two draws give the same id exactly when the first seven base-36
    digits they print are the same: digits after the seventh play no
    part, and different leading digits always give different ids. *)
Theorem shortId_same (ds1 ds2 : draw) :
  Forall (fun d => d < 36) ds1 ->
  Forall (fun d => d < 36) ds2 ->
  (shortId ds1 = shortId ds2 <-> firstn 7 ds1 = firstn 7 ds2).
Proof.
  intros H1 H2. rewrite !shortId_digits. split.
  - apply map_digit36_injective; now apply Forall_firstn.
  - now intros ->.
Qed.

Lemma shortId_same_witness :
  shortId [1; 2; 3; 4; 5; 6; 7; 8] = shortId [1; 2; 3; 4; 5; 6; 7; 30; 2].
Proof.
  apply (shortId_same [1; 2; 3; 4; 5; 6; 7; 8] [1; 2; 3; 4; 5; 6; 7; 30; 2]).
  - repeat constructor.
  - repeat constructor.
  - reflexivity.
Defined.

(** ** The command line *)

Lemma trimStart_idempotent (s : jsstring) :
  trimStart (trimStart s) = trimStart s.
Proof.
  induction s as [|c s' IH]; [reflexivity|]. simpl.
  destruct (is_space c) eqn:Hc; [exact IH|]. simpl. now rewrite Hc.
Qed.

Lemma trimStart_head (s : jsstring) :
  trimStart s = [] \/
  exists c t, trimStart s = c :: t /\ is_space c = false.
Proof.
  induction s as [|c s' IH]; [now left|]. simpl.
  destruct (is_space c) eqn:Hc; [exact IH|]. right. now exists c, s'.
Qed.

Lemma trimStart_keeps_last (l : jsstring) (c : N) :
  is_space c = false -> exists l', trimStart (l ++ [c]) = l' ++ [c].
Proof.
  intros Hc. induction l as [|a l' IH]; simpl.
  - rewrite Hc. now exists [].
  - destruct (is_space a); [exact IH|]. now exists (a :: l').
Qed.

Lemma trimEnd_idempotent (s : jsstring) : trimEnd (trimEnd s) = trimEnd s.
Proof.
  unfold trimEnd. now rewrite rev_involutive, trimStart_idempotent.
Qed.

(** [trim] is idempotent. *)
Lemma trim_idempotent (s : jsstring) : trim (trim s) = trim s.
Proof.
  unfold trim. destruct (trimStart_head s) as [E|(c & t & E & Hc)].
  - rewrite E. reflexivity.
  - rewrite E.
    assert (H : trimStart (trimEnd (c :: t)) = trimEnd (c :: t)).
    { unfold trimEnd. simpl rev.
      destruct (trimStart_keeps_last (rev t) c Hc) as [l' ->].
      rewrite rev_app_distr. simpl. now rewrite Hc. }
    rewrite H. apply trimEnd_idempotent.
Qed.

Lemma or_str_nil (s : jsstring) : or_str s [] = s.
Proof. now destruct s. Qed.

(** The submit handler of the command line always returns.  A line that
    is empty or white space is ignored: nothing is printed and nothing
    changes.  White space around a line makes no difference to what the
    command does.  For any other line the input is emptied when the
    command completes, and keeps its text when the command throws. *)
Theorem cliSubmit_spec (h : Host) (env : Env) (value : jsstring) (w : World) :
  (trim value = [] -> cliSubmit h env value w = Returns (Done w, value)) /\
  (exists o box,
     cliSubmit h env value w = Returns (o, box) /\
     (trim value <> [] ->
      match o with
      | Done _ => box = []
      | Throws _ _ => box = value
      end)) /\
  map_result fst (cliSubmit h env value w)
  = map_result fst (cliSubmit h env (trim value) w).
Proof.
  unfold cliSubmit. rewrite !or_str_nil, trim_idempotent.
  destruct (trim value) as [|c t] eqn:E.
  - simpl. split; [reflexivity|]. split; [|reflexivity].
    eexists _, _. split; [reflexivity|]. congruence.
  - cbn [truthy_str negb].
    destruct (handleCommand_total h env (c :: t)
                (print (js "$ " ++ c :: t) ClsLine w)) as (o & Ho).
    rewrite Ho. split; [discriminate|].
    split; [|now destruct o].
    destruct o; eexists _, _; (split; [reflexivity|]); reflexivity.
Qed.

Lemma cliSubmit_spec_witness :
  cliSubmit sample_host sample_env (js "   ") seeded_world
  = Returns (Done seeded_world, js "   ").
Proof.
  apply (cliSubmit_spec sample_host sample_env (js "   ") seeded_world).
  reflexivity.
Defined.

(** ** What the commands print *)

Lemma appended_nil (w w' : World) :
  els_screen (els w') = els_screen (els w) -> appended [] w w'.
Proof.
  unfold appended. intros ->. destruct (els_screen (els w)); simpl;
    [now rewrite app_nil_r|reflexivity].
Qed.

Lemma appended_print (more : list line) (t : jsstring) (c : cls)
    (w0 w : World) :
  appended more w0 w -> appended (more ++ [(c, t)]) w0 (print t c w).
Proof.
  unfold appended. intros H. rewrite print_screen, H.
  destruct (els_screen (els w0)); simpl; [now rewrite app_assoc|reflexivity].
Qed.

Lemma appended_fold {A} (more : list line) (g : A -> jsstring) (c : cls)
    (xs : list A) (w0 w : World) :
  appended more w0 w ->
  appended (more ++ map (fun x => (c, g x)) xs) w0
    (fold_left (fun w' x => print (g x) c w') xs w).
Proof.
  unfold appended. intros H. rewrite fold_print_screen, H.
  destruct (els_screen (els w0)); simpl; [now rewrite app_assoc|reflexivity].
Qed.

Lemma commitCmd_lines (h : Host) (message : jsstring) (w w' : World) :
  commitCmd h message w = Done w' ->
  exists more, appended more w w' /\ length more = 2%nat.
Proof.
  unfold commitCmd.
  destruct (if truthy_str (and_str message (trim message))
            then Some (trim message) else randomFailure h) as [msg|];
    [|discriminate].
  destruct (suggestLesson h) as [f|]; [|discriminate].
  intros [= <-]. rewrite !print_state. simpl state. cbn [pending].
  rewrite lastn_one_app. eexists. split.
  - eapply (appended_fold _
              (fun p => js "changes staged:" ++ nl ++ js "  fail:   "
                        ++ pending_message p ++ nl ++ js "  lesson: "
                        ++ pending_lesson p)).
    apply appended_print. now apply appended_nil.
  - reflexivity.
Qed.

(** What a command adds to the screen: help and about eight lines each,
    log one line for each entry or one warning, commit two lines when it
    completes and none when it throws, and push, motto, stats and an
    unknown command one line each.  Apart from clear, no command removes
    or changes a line that is on the screen. *)
Theorem handleCommand_lines (h : Host) (env : Env) (raw : jsstring)
    (w : World) (o : outcome) :
  handleCommand h env raw w = Returns o ->
  command_of raw <> js "clear" ->
  exists more,
    appended more w (world_of o) /\
    length more = lines_added (command_of raw) w o.
Proof.
  intros Ho Hc. rewrite handleCommand_dispatch in Ho. injection Ho as <-.
  unfold lines_added. split_command raw; simpl world_of.
  - eexists. split.
    + unfold help.
      apply (appended_fold []
               (fun cd => padEnd 18 (fst cd) ++ js " " ++ snd cd)).
      now apply appended_nil.
    + reflexivity.
  - eexists. split.
    + unfold aboutCmd. repeat apply appended_print. now apply appended_nil.
    + reflexivity.
  - unfold logCmd. destruct (entries (state w)) as [|e l] eqn:E.
    + eexists. split; [apply appended_print; now apply appended_nil|].
      reflexivity.
    + eexists. split.
      * apply (appended_fold [] log_text). now apply appended_nil.
      * rewrite length_app, length_map, length_rev. simpl. lia.
  - destruct (commitCmd h (argument_of raw) w) as [w'|e w'] eqn:Hcm.
    + now apply (commitCmd_lines h (argument_of raw)).
    + destruct (commitCmd_outcome h (argument_of raw) w)
        as [(name & Hn)|(w1 & Hd & _)]; [|congruence].
      rewrite Hcm in Hn. injection Hn as _ ->. exists [].
      split; [now apply appended_nil|reflexivity].
  - unfold pushCmd. destruct (pending (state w)) as [|p ps].
    + eexists. split; [apply appended_print; now apply appended_nil|].
      reflexivity.
    + eexists. split.
      * unfold party, appended. rewrite renderHomeLists_screen_same.
        apply appended_print. now apply appended_nil.
      * reflexivity.
  - apply jsstring_eqb_eq in Hclear. contradiction.
  - unfold mottoCmd.
    destruct (negb (truthy_str (and_str (argument_of raw)
                                  (trim (argument_of raw))))).
    + eexists. split; [apply appended_print; now apply appended_nil|].
      reflexivity.
    + eexists. split;
        [apply appended_print; now apply appended_nil|reflexivity].
  - eexists. split;
      [unfold statsCmd; apply appended_print; now apply appended_nil
      |reflexivity].
  - eexists. split;
      [apply appended_print; now apply appended_nil|reflexivity].
Qed.

Lemma handleCommand_lines_witness :
  exists more,
    appended more seeded_world
      (world_of (Done (logCmd seeded_world))) /\
    length more = 2%nat.
Proof.
  apply (handleCommand_lines script_only sample_env (js "log") seeded_world
           (Done (logCmd seeded_world))).
  - vm_compute. reflexivity.
  - vm_compute. discriminate.
Defined.

(** [clear] empties the screen, the echo of the command included, and
    leaves the lists of the page, the state and the stored record as they
    are. *)
Theorem handleCommand_clear (h : Host) (env : Env) (raw : jsstring)
    (w : World) :
  command_of raw = js "clear" ->
  exists w',
    handleCommand h env raw w = Returns (Done w') /\
    els_screen (els w') = option_map (fun _ => []) (els_screen (els w)) /\
    els_list (els w') = els_list (els w) /\
    els_mottosList (els w') = els_mottosList (els w) /\
    state w' = state w /\ storage w' = storage w.
Proof.
  intros Hc. rewrite handleCommand_dispatch, Hc.
  exists (clearScreen w). split; [reflexivity|].
  unfold clearScreen.
  destruct (els_screen (els w)) eqn:E; simpl; rewrite ?E;
    repeat split; reflexivity.
Qed.

Lemma handleCommand_clear_witness :
  exists w',
    handleCommand script_only sample_env (js "CLEAR")
      (logCmd seeded_world) = Returns (Done w') /\
    els_screen (els w') = Some [].
Proof.
  destruct (handleCommand_clear script_only sample_env (js "CLEAR")
              (logCmd seeded_world)) as (w' & H1 & H2 & _).
  { vm_compute. reflexivity. }
  exists w'. split; [exact H1|exact H2].
Defined.
